(** * The job lifecycle client of [cybergis_compute_client/Job.py]

    A shallow embedding of the [Job] class: the Python values it handles,
    the string functions it calls, a state-and-exception monad for its
    effects (transport requests, the identity file, console output,
    sleeping), and its methods, followed by the properties claimed of them. *)

From stdpp Require Import gmap strings list.
From Stdlib Require Import ZArith Ascii.

Local Open Scope Z_scope.
Set Warnings "-register-all".

(** ** Python values *)

(** The JSON-like values that travel between the client, the transport and
    the identity file.  Dictionaries are keyed by strings. *)
Inductive pyval : Type :=
| PNone
| PBool (b : bool)
| PInt (z : Z)
| PStr (s : string)
| PList (l : list pyval)
| PDict (d : gmap string pyval).

(** Python truthiness, as tested by [if x:]. *)
Definition truthy (v : pyval) : bool :=
  match v with
  | PNone => false
  | PBool b => b
  | PInt z => negb (z =? 0)
  | PStr s => negb (String.eqb s "")
  | PList l => negb (Nat.eqb (length l) 0)
  | PDict d => negb (Nat.eqb (size d) 0)
  end.

(** [v is None] / [v == None]. *)
Definition is_none (v : pyval) : bool :=
  match v with PNone => true | _ => false end.

(** [v == 'literal']. *)
Definition eq_str (v : pyval) (s : string) : bool :=
  match v with PStr t => String.eqb t s | _ => false end.

(** ** Python string functions *)

Module Str.

(** [s.split(sep)] for a non-empty [sep]: scan left to right, cut at each
    occurrence of [sep] and resume after it.  [skip] counts the characters
    of a matched separator still to be passed over, [cur] is the piece
    being collected. *)
Fixpoint split_go (sep : string) (skip : nat) (cur : string) (s : string)
  : list string :=
  match s with
  | EmptyString => [cur]
  | String c s' =>
      match skip with
      | S k => split_go sep k cur s'
      | O =>
          if String.prefix sep s
          then cur :: split_go sep (Nat.pred (String.length sep)) "" s'
          else split_go sep 0 (cur +:+ String c "") s'
      end
  end.

Definition split (sep s : string) : list string := split_go sep 0 "" s.

(** [s.replace(old, new)] for a non-empty [old]: every non-overlapping
    occurrence of [old], leftmost first, becomes [new]. *)
Fixpoint replace_go (old new : string) (skip : nat) (s : string) : string :=
  match s with
  | EmptyString => ""
  | String c s' =>
      match skip with
      | S k => replace_go old new k s'
      | O =>
          if String.prefix old s
          then new +:+ replace_go old new (Nat.pred (String.length old)) s'
          else String c (replace_go old new 0 s')
      end
  end.

(** With an empty [old] Python inserts [new] before every character and
    at the end. *)
Fixpoint intersperse (new : string) (s : string) : string :=
  match s with
  | EmptyString => new
  | String c s' => new +:+ String c (intersperse new s')
  end.

Definition replace (old new s : string) : string :=
  match old with
  | EmptyString => intersperse new s
  | _ => replace_go old new 0 s
  end.

(** The number of positions of [s] at which [sep] occurs. *)
Fixpoint count (sep s : string) : nat :=
  match s with
  | EmptyString => 0%nat
  | String _ s' => ((if String.prefix sep s then 1 else 0) + count sep s')%nat
  end.

(** Last character test, for [os.path.join]. *)
Fixpoint ends_with_slash (s : string) : bool :=
  match s with
  | EmptyString => false
  | String c EmptyString => Ascii.eqb c "/"%char
  | String _ s' => ends_with_slash s'
  end.

(** [s * n]. *)
Fixpoint times (s : string) (n : nat) : string :=
  match n with
  | O => ""
  | S n' => s +:+ times s n'
  end.

End Str.

(** [os.path.join(a, b)] on a POSIX system. *)
Definition os_path_join (a b : string) : string :=
  if String.prefix "/" b then b
  else if String.eqb a "" then b
  else if Str.ends_with_slash a then a +:+ b
  else a +:+ "/" +:+ b.

(** The count [posixpath.normpath] keeps of the leading slashes: exactly
    two stay two, three or more count as one. *)
Definition initial_slashes (path : string) : nat :=
  if String.prefix "/" path then
    if String.prefix "//" path && negb (String.prefix "///" path)
    then 2%nat else 1%nat
  else 0%nat.

(** One round of the loop of [posixpath.normpath] over the components:
    empty and [.] components are dropped, [..] removes the component
    before it (at the root it is dropped; in a relative path it is kept
    where nothing is left to remove). *)
Definition norm_comp (initial_slashes : nat) (new_comps : list string)
    (comp : string) : list string :=
  if String.eqb comp "" || String.eqb comp "." then new_comps
  else if negb (String.eqb comp "..")
          || (Nat.eqb initial_slashes 0 && bool_decide (new_comps = []))
          || match last new_comps with
             | Some c => String.eqb c ".."
             | None => false
             end
       then new_comps ++ [comp]
       else removelast new_comps.

(** [os.path.normpath(path)] on a POSIX system. *)
Definition os_path_normpath (path : string) : string :=
  if String.eqb path "" then "."
  else
    let k := initial_slashes path in
    let comps := fold_left (norm_comp k) (Str.split "/" path) [] in
    let path := Str.times "/" k +:+ String.concat "/" comps in
    if String.eqb path "" then "." else path.

(** [os.path.abspath(p)] in the working directory [cwd], on a POSIX
    system: a relative path is joined to the working directory, and the
    result is put in normal form. *)
Definition abspath_of (cwd p : string) : string :=
  os_path_normpath (if String.prefix "/" p then p else os_path_join cwd p).

(** ** Effects *)

(** The exceptions the client can raise or let through.  [Exception] is the
    plain [raise Exception(msg)] of the source; the others are raised by the
    Python runtime or the transport. *)
Inductive exn : Type :=
| Exception (msg : string)
| KeyError (key : string)
| TypeError
| AttributeError
| ValueError
| TransportError (msg : string).

(** What a scripted transport answers to one call. *)
Inductive reply : Type :=
| Reply (v : pyval)
| Fail (msg : string).

(** Everything the client does to the outside, in the order it happens. *)
Inductive io : Type :=
| IoRequest (method path : string) (body : pyval)
| IoUpload (path : string) (params : pyval) (archive : list (string * string))
| IoDownload (method path : string) (params : pyval) (dest : string)
| IoWriteFile (path : string) (content : pyval)
| IoPrint (line : string)
| IoPrintDict (d : gmap string pyval)
| IoTable (html : bool) (headers : list string) (rows : list (list pyval))
| IoClearOutput
| IoSystem (cmd : string)
| IoSleep (seconds : Z).

(** A directory entry on disk.  A symbolic link to a directory carries the
    entries it resolves to; a link to a file reads as that file. *)
Inductive node : Type :=
| File (content : string)
| Dir (entries : list (string * node))
| SymlinkDir (entries : list (string * node)).

(** The world outside the [Job] object: the JSON files on disk and the
    directory trees on disk (both by absolute path in normal form), the
    answers the transport will give, in order, and the log of effects so
    far. *)
Record World : Type := mkWorld {
  cwd : string;
  os_name : string;
  fs : gmap string pyval;
  trees : gmap string node;
  net : list reply;
  out : list io
}.

Definition log (e : io) (w : World) : World :=
  mkWorld (cwd w) (os_name w) (fs w) (trees w) (net w) (out w ++ [e]).

Definition set_net (n : list reply) (w : World) : World :=
  mkWorld (cwd w) (os_name w) (fs w) (trees w) n (out w).

Definition set_fs (f : gmap string pyval) (w : World) : World :=
  mkWorld (cwd w) (os_name w) f (trees w) (net w) (out w).

(** The outcome of a computation: a value, an exception, a call that waits
    for an answer the transport script does not hold, or a loop cut short
    by its iteration bound. *)
Inductive result (A : Type) : Type :=
| Ok (a : A)
| Raised (e : exn)
| Blocked
| OutOfFuel.
Arguments Ok {A} a.
Arguments Raised {A} e.
Arguments Blocked {A}.
Arguments OutOfFuel {A}.

(** The value of a computation that returned. *)
Definition fst_ok {A} (r : result A) : option A :=
  match r with Ok a => Some a | _ => None end.

Definition M (A : Type) : Type := World -> result A * World.

Definition ret {A} (a : A) : M A := fun w => (Ok a, w).

Definition bind {A B} (m : M A) (k : A -> M B) : M B :=
  fun w =>
    match m w with
    | (Ok a, w') => k a w'
    | (Raised e, w') => (Raised e, w')
    | (Blocked, w') => (Blocked, w')
    | (OutOfFuel, w') => (OutOfFuel, w')
    end.

Definition raise {A} (e : exn) : M A := fun w => (Raised e, w).

Definition emit (e : io) : M unit := fun w => (Ok tt, log e w).

Notation "x <- m ;; k" := (bind m (fun x => k))
  (at level 200, m at level 99, k at level 200, right associativity,
   format "'[v' x  <-  m  ;; '/' k ']'").
Notation "m ;;; k" := (bind m (fun _ => k))
  (at level 200, k at level 200, right associativity,
   format "'[v' m  ;;; '/' k ']'").

(** *** Python operations that can raise *)

(** [v[key]] on a dictionary. *)
Definition getitem (v : pyval) (key : string) : M pyval :=
  match v with
  | PDict d =>
      match d !! key with
      | Some x => ret x
      | None => raise (KeyError key)
      end
  | _ => raise TypeError
  end.

(** ['literal' + v]: only strings concatenate. *)
Definition str_add (s : string) (v : pyval) : M string :=
  match v with
  | PStr t => ret (s +:+ t)
  | _ => raise TypeError
  end.

(** A value used as a sequence ([len(v)], [v[i]]). *)
Definition as_list (v : pyval) : M (list pyval) :=
  match v with
  | PList l => ret l
  | _ => raise TypeError
  end.

(** [v.split(sep)]: only strings have the method. *)
Definition py_split (v : pyval) (sep : string) : M (list string) :=
  match v with
  | PStr s => ret (Str.split sep s)
  | _ => raise AttributeError
  end.

(** [time.sleep(seconds)]. *)
Definition time_sleep (seconds : Z) : M unit :=
  if seconds <? 0 then raise ValueError else emit (IoSleep seconds).

(** *** The transport ([Client], an external collaborator)

    [self.client] is either [None] (the constructor's default) or a client
    whose answers are the next entries of the script [net]. *)
Inductive client_ref : Type := NoClient | TheClient.

Definition answer : M pyval :=
  fun w =>
    match net w with
    | [] => (Blocked, w)
    | Reply v :: rest => (Ok v, set_net rest w)
    | Fail msg :: rest => (Raised (TransportError msg), set_net rest w)
    end.

Definition client_request (c : client_ref) (method path : string) (body : pyval)
  : M pyval :=
  match c with
  | NoClient => raise AttributeError
  | TheClient => emit (IoRequest method path body) ;;; answer
  end.

Definition client_upload (c : client_ref) (path : string) (params : pyval)
    (archive : list (string * string)) : M pyval :=
  match c with
  | NoClient => raise AttributeError
  | TheClient => emit (IoUpload path params archive) ;;; answer
  end.

Definition client_download (c : client_ref) (method path : string)
    (params : pyval) (dest : string) : M pyval :=
  match c with
  | NoClient => raise AttributeError
  | TheClient => emit (IoDownload method path params dest) ;;; answer
  end.

(** *** The working directory *)

(** The file a path names: files are kept under their absolute path in
    normal form, so that [./f], [f] and the absolute path of [f] name one
    file. *)
Definition resolve (w : World) (p : string) : string :=
  abspath_of (cwd w) p.

(** [os.path.abspath(p)]. *)
Definition os_path_abspath (p : string) : M string :=
  fun w => (Ok (abspath_of (cwd w) p), w).

(** [path.exists(p)]. *)
Definition path_exists (p : string) : M bool :=
  fun w => (Ok (bool_decide (is_Some (fs w !! resolve w p))), w).

(** [json.load(open(p))]; the file holds the value that was dumped. *)
Definition json_load (p : string) : M pyval :=
  fun w =>
    match fs w !! resolve w p with
    | Some v => (Ok v, w)
    | None => (Raised (Exception "FileNotFoundError"), w)
    end.

(** [json.dump(v, open(p, 'w'))]. *)
Definition json_dump (p : string) (v : pyval) : M unit :=
  fun w => (Ok tt, log (IoWriteFile p v) (set_fs (<[resolve w p := v]> (fs w)) w)).

(** *** Walking a directory: [os.walk(top, followlinks)] *)

(** One step of the walk: the directory reached, the names of its
    sub-directories and its files.  A file comes with the bytes that
    [open(os.path.join(root, f), 'rb').read()] returns for it. *)
Definition walk_step : Type := string * list string * list (string * string).

Definition is_dir (n : node) : bool :=
  match n with File _ => false | _ => true end.

Definition dir_names (es : list (string * node)) : list string :=
  map fst (filter (fun e => is_dir (snd e) = true) es).

Definition file_entries (es : list (string * node)) : list (string * string) :=
  flat_map (fun e => match snd e with File c => [(fst e, c)] | _ => [] end) es.

(** Top-down walk: the directory itself, then each sub-directory in turn;
    a linked directory is entered only when [followlinks] is set. *)
Fixpoint os_walk (followlinks : bool) (top : string) (n : node) {struct n}
  : list walk_step :=
  let descend :=
    fix descend (es : list (string * node)) : list walk_step :=
      match es with
      | [] => []
      | (name, child) :: es' =>
          app
            match child with
            | File _ => []
            | Dir _ => os_walk followlinks (os_path_join top name) child
            | SymlinkDir _ =>
                if followlinks
                then os_walk followlinks (os_path_join top name) child
                else []
            end
            (descend es')
      end in
  match n with
  | File _ => []
  | Dir es | SymlinkDir es =>
      (top, dir_names es, file_entries es) :: descend es
  end.

(** ** The token manager ([JAT], not among the sources) *)

Record JAT : Type := mkJAT {
  jat_algorithm : string;
  jat_id : pyval;
  jat_secretToken : pyval
}.

(** ** The archiver ([Zip], not among the sources) *)

Module Zip.
(** Modelled from the spec: the class [Zip] is missing; [append] stages
    one file's content at the path it is given and [read] produces the
    archive, whose format is opaque: it is kept as the staged entries. *)
Definition t : Type := list (string * string).
Definition new : t := [].
Definition append (z : t) (p : string) (content : string) : t :=
  z ++ [(p, content)].
Definition read (z : t) : list (string * string) := z.
End Zip.

(** ** The class [Job] *)

Module Job.

(** The attributes of an instance. *)
Record t : Type := mk {
  JAT_ : JAT;
  client : client_ref;
  maintainer : pyval;
  isJupyter : pyval;
  id : pyval;
  hpc : pyval;
  body : gmap string pyval
}.

Definition with_body (self : t) (b : gmap string pyval) : t :=
  mk (JAT_ self) (client self) (maintainer self) (isJupyter self)
     (id self) (hpc self) b.

(** The job a mutating method leaves behind: the updated one when it
    returns, the one it was called on when it raises before its update. *)
Definition after {A} (self : t) (r : result (t * A)) : t :=
  match r with
  | Ok (self', _) => self'
  | _ => self
  end.

Definition JOB_ENDED : string := "JOB_ENDED".
Definition JOB_FAILED : string := "JOB_FAILED".

Definition is_terminal (ty : pyval) : bool :=
  eq_str ty JOB_ENDED || eq_str ty JOB_FAILED.

(** [self.client.<method>]: the attribute is looked up before the
    arguments of the call are evaluated. *)
Definition client_attr (self : t) : M unit :=
  match client self with
  | NoClient => raise AttributeError
  | TheClient => ret tt
  end.

(** [key in v]. *)
Definition py_in (key : string) (v : pyval) : M bool :=
  match v with
  | PDict d => ret (bool_decide (is_Some (d !! key)))
  | PList l => ret (existsb (fun x => eq_str x key) l)
  | PStr s => ret (negb (Nat.eqb (Str.count key s) 0))
  | _ => raise TypeError
  end.

(** [os.path.join(dir, fileId)] with the caller's [dir]. *)
Definition join_dir (dir : pyval) (fileId : string) : M string :=
  match dir with
  | PStr d => ret (os_path_join d fileId)
  | _ => raise TypeError
  end.

Section Methods.

(** Modelled from the spec: [JAT.getAccessToken] is missing; it derives
    the token deterministically from the algorithm, job id and secret
    the manager was initialised with. *)
Variable getAccessToken : JAT -> pyval.

Definition access_params (self : t) : gmap string pyval :=
  {[ "accessToken" := getAccessToken (JAT_ self) ]}.

(** [Job.__init__], lines 14-67. *)
Definition __init__ (maintainer hpc id user password : pyval)
    (client : client_ref) (isJupyter : pyval) : M t :=
  let self0 :=
    mk (mkJAT "" PNone PNone) client maintainer isJupyter PNone PNone ∅ in
  loaded <-
    (if negb (is_none id) then
       probe <- str_add "./job_constructor_" id ;;
       found <- path_exists (probe +:+ ".json") ;;
       if (found : bool) then
         name <- str_add "job_constructor_" id ;;
         p <- os_path_abspath (name +:+ ".json") ;;
         constructor <- json_load p ;;
         id' <- getitem constructor "id" ;;
         sT <- getitem constructor "secretToken" ;;
         hpc' <- getitem constructor "hpc" ;;
         maintainer' <- getitem constructor "maintainer" ;;
         ret (id', sT, hpc', maintainer')
       else
         msg <- str_add "jobID provided but constructor file [job_constructor_" id ;;
         raise (Exception (msg +:+ ".json] not found"))
     else
       if is_none maintainer then
         raise (Exception "maintainer cannot by NoneType")
       else
         let req : gmap string pyval := {[ "maintainer" := maintainer ]} in
         let req := if negb (is_none hpc) then <["hpc" := hpc]> req else req in
         out <-
           (client_attr self0 ;;;
            if is_none user then
              client_request client "POST" "/job" (PDict req)
            else
              client_request client "POST" "/job"
                (PDict (<["password" := password]> (<["user" := user]> req)))) ;;
         hpc' <- getitem out "hpc" ;;
         sT <- getitem out "secretToken" ;;
         id' <- getitem out "id" ;;
         name <- str_add "./job_constructor_" id' ;;
         json_dump (name +:+ ".json")
           (PDict (<["secretToken" := sT]> (<["id" := id']>
                    (<["hpc" := hpc']> {[ "maintainer" := maintainer ]})))) ;;;
         line <- str_add "📃 created constructor file [job_constructor_" id' ;;
         emit (IoPrint (line +:+ ".json]")) ;;;
         ret (id', sT, hpc', maintainer)) ;;
  let '(id, sT, hpc, _) := loaded in
  (if negb (is_none password) then
     emit (IoPrint "⚠️ password input detected, change your code to use Job(id= + id + ) instead") ;;;
     emit (IoPrint "🙅‍♂️ it's not safe to distribute code with login credentials") ;;;
     line <- str_add "📃 share constructor file [job_constructor_" id ;;
     emit (IoPrint (line +:+ ".json] instead"))
   else ret tt) ;;;
  ret (mk (mkJAT "md5" id sT) client maintainer isJupyter id hpc
          (<["param" := PDict ∅]> (<["env" := PDict ∅]>
            (<["slurm" := PDict ∅]> {[ "executableFolder" := PNone ]})))).

(** [Job.status], lines 199-205. *)
Definition status (self : t) : M pyval :=
  if is_none (id self) then
    raise (Exception "missing job ID, submit/register job first")
  else
    client_attr self ;;;
    p <- str_add "/job/" (id self) ;;
    client_request (client self) "GET" p (PDict (access_params self)).

(** [Job._clear], lines 246-254. *)
Definition _clear (self : t) : M unit :=
  (if truthy (isJupyter self) then emit IoClearOutput else ret tt) ;;;
  fun w =>
    if String.eqb (os_name w) "nt" then emit (IoSystem "cls") w
    else emit (IoSystem "clear") w.

(** The three identification lines printed above every table. *)
Definition print_banner (self : t) : M unit :=
  l1 <- str_add "📮 Job ID: " (id self) ;;
  emit (IoPrint l1) ;;;
  l2 <- str_add "💻 HPC: " (hpc self) ;;
  emit (IoPrint l2) ;;;
  l3 <- str_add "🤖 Maintainer: " (maintainer self) ;;
  emit (IoPrint l3).

(** [Job.set], lines 112-125. *)
Definition set (self : t)
    (executableFolder dataFolder resultFolder param env slurm : pyval)
  : M (t * pyval) :=
  let b := body self in
  let b := if truthy executableFolder
           then <["executableFolder" := executableFolder]> b else b in
  let b := if truthy dataFolder then <["dataFolder" := dataFolder]> b else b in
  let b := if truthy resultFolder
           then <["resultFolder" := resultFolder]> b else b in
  let b := if truthy param then <["param" := param]> b else b in
  let b := if truthy env then <["env" := env]> b else b in
  let b := if truthy slurm then <["slurm" := slurm]> b else b in
  emit (IoPrintDict b) ;;;
  ret (with_body self b, PNone).

(** The inner loop of [events], lines 138-155: the events of [out] from
    position [len(events)] on, one display per event. *)
Fixpoint events_flush (self : t) (todo : list pyval)
    (events : list (list pyval)) (isEnd : bool)
  : M (list (list pyval) * bool) :=
  match todo with
  | [] => ret (events, isEnd)
  | o :: todo' =>
      _clear self ;;;
      ty <- getitem o "type" ;;
      msg <- getitem o "message" ;;
      at_ <- getitem o "createdAt" ;;
      let events := events ++ [[ty; msg; at_]] in
      let isEnd := isEnd || eq_str ty JOB_ENDED || eq_str ty JOB_FAILED in
      print_banner self ;;;
      emit (IoTable (truthy (isJupyter self))
                    ["types"; "message"; "time"] events) ;;;
      events_flush self todo' events isEnd
  end.

(** The outer loop of [events], lines 133-158, at most [fuel] polls. *)
Fixpoint events_loop (fuel : nat) (self : t) (refreshRateInSeconds : Z)
    (events : list (list pyval)) : M pyval :=
  match fuel with
  | O => fun w => (OutOfFuel, w)
  | S fuel' =>
      st <- status self ;;
      out <- getitem st "events" ;;
      out <- as_list out ;;
      r <- events_flush self (drop (length events) out) events false ;;
      let '(events, isEnd) := r in
      if (isEnd : bool) then ret PNone
      else
        time_sleep refreshRateInSeconds ;;;
        events_loop fuel' self refreshRateInSeconds events
  end.

(** [Job.events], lines 127-158.  Every poll takes one answer from the
    transport script, so one more iteration than it has answers is
    never cut short. *)
Definition events (self : t) (liveOutput : bool) (refreshRateInSeconds : Z)
  : M pyval :=
  if negb liveOutput then
    st <- status self ;;
    getitem st "events"
  else
    fun w => events_loop (S (length (net w))) self
               refreshRateInSeconds [] w.

(** The first inner loop of [logs], lines 171-186. *)
Fixpoint logs_flush (self : t) (todo : list pyval)
    (logs : list (list pyval)) : M (list (list pyval)) :=
  match todo with
  | [] => ret logs
  | o :: todo' =>
      _clear self ;;;
      msg <- getitem o "message" ;;
      at_ <- getitem o "createdAt" ;;
      let logs := logs ++ [[msg; at_]] in
      print_banner self ;;;
      emit (IoTable (truthy (isJupyter self)) ["message"; "time"] logs) ;;;
      logs_flush self todo' logs
  end.

(** The second inner loop of [logs], lines 188-194. *)
Fixpoint logs_scan (evs : list pyval) (isEnd : bool) : M bool :=
  match evs with
  | [] => ret isEnd
  | e :: evs' =>
      eventType <- getitem e "type" ;;
      let isEnd := eq_str eventType JOB_ENDED || eq_str eventType JOB_FAILED in
      if isEnd then ret isEnd else logs_scan evs' isEnd
  end.

(** The outer loop of [logs], lines 166-197, at most [fuel] polls. *)
Fixpoint logs_loop (fuel : nat) (self : t) (refreshRateInSeconds : Z)
    (logs : list (list pyval)) : M pyval :=
  match fuel with
  | O => fun w => (OutOfFuel, w)
  | S fuel' =>
      st <- status self ;;
      ls <- getitem st "logs" ;;
      ls <- as_list ls ;;
      logs <- logs_flush self (drop (length logs) ls) logs ;;
      evs <- getitem st "events" ;;
      evs <- as_list evs ;;
      isEnd <- logs_scan evs false ;;
      (if (isEnd : bool) then time_sleep refreshRateInSeconds else ret tt) ;;;
      if (isEnd : bool) then ret PNone
      else logs_loop fuel' self refreshRateInSeconds logs
  end.

(** [Job.logs], lines 160-197. *)
Definition logs (self : t) (liveOutput : bool) (refreshRateInSeconds : Z)
  : M pyval :=
  if negb liveOutput then
    st <- status self ;;
    getitem st "logs"
  else
    fun w => logs_loop (S (length (net w))) self
               refreshRateInSeconds [] w.

(** [Job.downloadResultFolder], lines 207-236. *)
Definition downloadResultFolder (self : t) (dir : pyval) : M pyval :=
  if is_none (id self) then
    raise (Exception "missing job ID, submit/register job first")
  else
    jobStatus <- status self ;;
    present <- py_in "resultFolder" jobStatus ;;
    if negb present then
      raise (Exception "executable folder is not ready")
    else
      resultFolder <- getitem jobStatus "resultFolder" ;;
      i <- py_split resultFolder "://" ;;
      match i with
      | [fileType; fileId] =>
          if String.eqb fileType "globus" then
            client_attr self ;;;
            client_request (client self) "GET" "/file"
              (PDict (<["fileUrl" := resultFolder]> (access_params self)))
          else if String.eqb fileType "local" then
            dir <- join_dir dir fileId ;;
            client_attr self ;;;
            dir <- client_download (client self) "GET" "/file"
                     (PDict (<["fileUrl" := resultFolder]> (access_params self)))
                     dir ;;
            line <- str_add "file successfully downloaded under: " dir ;;
            emit (IoPrint line) ;;;
            ret dir
          else ret PNone
      | _ => raise (Exception "invalid result folder formate provided")
      end.

(** The files [uploadExecutableFolder] stages, lines 99-104: for every
    step of the walk and every file of it, the content under the path
    [os.path.join(root.replace(folder_path, ''), f)]. *)
Definition stage (folder_path : string) (steps : list walk_step) : Zip.t :=
  fold_left
    (fun zip step =>
       let '(root, _, files) := step in
       fold_left
         (fun zip fc =>
            Zip.append zip
              (os_path_join (Str.replace folder_path "" root) (fst fc))
              (snd fc))
         files zip)
    steps Zip.new.

(** [Job.uploadExecutableFolder], lines 96-110. *)
Definition uploadExecutableFolder (self : t) (folder_path : string)
  : M (t * pyval) :=
  folder_path <- os_path_abspath folder_path ;;
  steps <- (fun w =>
              (Ok match trees w !! folder_path with
                  | Some n => os_walk true folder_path n
                  | None => []
                  end, w)) ;;
  let zip := stage folder_path steps in
  client_attr self ;;;
  response <- client_upload (client self) "/file"
                (PDict (access_params self)) (Zip.read zip) ;;
  file <- getitem response "file" ;;
  ret (with_body self (<["executableFolder" := file]> (body self)), response).

End Methods.

End Job.

(** * Properties *)

Import Job.

(** Unfolding the monad and the primitive operations, then computing. *)
Create HintDb monad.
#[local] Hint Unfold bind ret raise emit answer getitem str_add as_list
  py_split py_in join_dir time_sleep client_request client_upload
  client_download client_attr os_path_abspath path_exists json_load
  json_dump : monad.

Ltac run := repeat (progress (autounfold with monad; simpl)).

(** Case analysis on whatever the computation in the goal branches on. *)
Ltac crunch_step :=
  match goal with
  | |- context [match ?m !! ?k with _ => _ end] =>
      let E := fresh "E" in destruct (m !! k) eqn:E
  | |- context [match net ?w with _ => _ end] =>
      let E := fresh "E" in destruct (net w) as [|[?|?] ?] eqn:E
  | |- context [match client ?s with _ => _ end] =>
      let E := fresh "E" in destruct (client s) eqn:E
  | |- context [is_none ?v] =>
      is_var v; let E := fresh "E" in destruct (is_none v) eqn:E
  | |- context [truthy ?v] =>
      is_var v; let E := fresh "E" in destruct (truthy v) eqn:E
  | |- context [match ?v with PNone => _ | _ => _ end] => is_var v; destruct v
  | |- context [match ?c with NoClient => _ | TheClient => _ end] =>
      is_var c; destruct c
  end.

Ltac crunch := run; repeat (crunch_step; run).

(** ** The iteration bound of the polling loops *)

(** A computation that takes no answer from the transport and is not a
    loop cut short. *)
Definition steady {A} (m : M A) : Prop :=
  ∀ w, net (snd (m w)) = net w ∧ fst (m w) ≠ OutOfFuel.

Lemma steady_ret {A} (a : A) : steady (ret a).
Proof. by intros w. Qed.

Lemma steady_raise {A} (e : exn) : steady (raise (A:=A) e).
Proof. by intros w. Qed.

Lemma steady_emit (e : io) : steady (emit e).
Proof. by intros w. Qed.

Lemma steady_bind {A B} (m : M A) (k : A → M B) :
  steady m → (∀ a, steady (k a)) → steady (bind m k).
Proof.
  intros Hm Hk w. unfold bind. destruct (Hm w) as [Hnet Hres].
  destruct (m w) as [[a|e| |] w1]; simpl in *; try done.
  destruct (Hk a w1) as [Hnet' Hres']. by rewrite Hnet', Hnet.
Qed.

Lemma steady_getitem (v : pyval) (k : string) : steady (getitem v k).
Proof.
  unfold getitem. destruct v; try apply steady_raise.
  destruct (d !! k); [apply steady_ret | apply steady_raise].
Qed.

Lemma steady_str_add (s : string) (v : pyval) : steady (str_add s v).
Proof. destruct v; try apply steady_raise. apply steady_ret. Qed.

Lemma steady_as_list (v : pyval) : steady (as_list v).
Proof. destruct v; try apply steady_raise. apply steady_ret. Qed.

Lemma steady_time_sleep (seconds : Z) : steady (time_sleep seconds).
Proof.
  unfold time_sleep. destruct (seconds <? 0);
    [apply steady_raise | apply steady_emit].
Qed.

Lemma steady_clear (self : Job.t) : steady (_clear self).
Proof.
  unfold _clear. apply steady_bind.
  - destruct (truthy (isJupyter self)); [apply steady_emit | apply steady_ret].
  - intros _ w. by destruct (String.eqb (os_name w) "nt").
Qed.

Ltac steady_step :=
  first [ apply steady_ret | apply steady_raise | apply steady_emit
        | apply steady_getitem | apply steady_str_add | apply steady_as_list
        | apply steady_time_sleep | apply steady_clear
        | apply steady_bind; [|intros ?] ].

Lemma steady_print_banner (self : Job.t) : steady (print_banner self).
Proof. unfold print_banner. repeat steady_step. Qed.

Lemma steady_events_flush (self : Job.t) (todo : list pyval) :
  ∀ events isEnd, steady (events_flush self todo events isEnd).
Proof.
  induction todo as [|o todo IH]; intros events isEnd; [apply steady_ret|].
  cbn [events_flush].
  repeat first [apply IH | apply steady_print_banner | steady_step].
Qed.

Lemma steady_logs_flush (self : Job.t) (todo : list pyval) :
  ∀ logs, steady (logs_flush self todo logs).
Proof.
  induction todo as [|o todo IH]; intros logs; [apply steady_ret|].
  cbn [logs_flush].
  repeat first [apply IH | apply steady_print_banner | steady_step].
Qed.

Lemma steady_logs_scan (evs : list pyval) :
  ∀ isEnd, steady (logs_scan evs isEnd).
Proof.
  induction evs as [|e evs IH]; intros isEnd; [apply steady_ret|].
  cbn [logs_scan]. apply steady_bind; [apply steady_getitem|]. intros ty.
  destruct (eq_str ty JOB_ENDED || eq_str ty JOB_FAILED);
    [apply steady_ret | apply IH].
Qed.

Section Fuel.
Variable getAccessToken : JAT -> pyval.

(** A status request that is answered takes one answer from the script. *)
Lemma status_takes_one (self : Job.t) (w : World) :
  match status getAccessToken self w with
  | (Ok _, w') => S (length (net w')) = length (net w)
  | (OutOfFuel, _) => False
  | _ => True
  end.
Proof.
  unfold status, client_attr.
  destruct (id self); run; try done;
    destruct (client self); run; try done;
    destruct (net w) as [|[v|msg] rest]; run; done.
Qed.

(** With more fuel than the script has answers the polling loops are
    never cut short: they return, raise, or wait for an answer. *)
Lemma events_loop_fuel (self : Job.t) (refresh : Z) (fuel : nat) :
  ∀ events w,
    (length (net w) < fuel)%nat →
    fst (events_loop getAccessToken fuel self refresh events w) ≠ OutOfFuel.
Proof.
  induction fuel as [|fuel IH]; intros events w Hfuel; [lia|].
  cbn [events_loop]. unfold bind at 1.
  pose proof (status_takes_one self w) as Hst.
  destruct (status getAccessToken self w) as [[st|e| |] w1]; try done.
  unfold bind at 1. destruct (steady_getitem st "events" w1) as [Hn1 Hr1].
  destruct (getitem st "events" w1) as [[v|e| |] w2]; try done.
  unfold bind at 1. destruct (steady_as_list v w2) as [Hn2 Hr2].
  destruct (as_list v w2) as [[l|e| |] w3]; try done.
  unfold bind at 1.
  destruct (steady_events_flush self (drop (length events) l) events false w3)
    as [Hn3 Hr3].
  destruct (events_flush self (drop (length events) l) events false w3)
    as [[[events' [|]]|e| |] w4]; try done.
  unfold bind. destruct (steady_time_sleep refresh w4) as [Hn4 Hr4].
  destruct (time_sleep refresh w4) as [[[]|e| |] w5]; try done.
  apply IH. simpl in *. rewrite Hn4, Hn3, Hn2, Hn1. lia.
Qed.

Lemma logs_loop_fuel (self : Job.t) (refresh : Z) (fuel : nat) :
  ∀ logs w,
    (length (net w) < fuel)%nat →
    fst (logs_loop getAccessToken fuel self refresh logs w) ≠ OutOfFuel.
Proof.
  induction fuel as [|fuel IH]; intros logs w Hfuel; [lia|].
  cbn [logs_loop]. unfold bind at 1.
  pose proof (status_takes_one self w) as Hst.
  destruct (status getAccessToken self w) as [[st|e| |] w1]; try done.
  unfold bind at 1. destruct (steady_getitem st "logs" w1) as [Hn1 Hr1].
  destruct (getitem st "logs" w1) as [[v|e| |] w2]; try done.
  unfold bind at 1. destruct (steady_as_list v w2) as [Hn2 Hr2].
  destruct (as_list v w2) as [[l|e| |] w3]; try done.
  unfold bind at 1.
  destruct (steady_logs_flush self (drop (length logs) l) logs w3) as [Hn3 Hr3].
  destruct (logs_flush self (drop (length logs) l) logs w3)
    as [[logs'|e| |] w4]; try done.
  unfold bind at 1. destruct (steady_getitem st "events" w4) as [Hn4 Hr4].
  destruct (getitem st "events" w4) as [[v'|e| |] w5]; try done.
  unfold bind at 1. destruct (steady_as_list v' w5) as [Hn5 Hr5].
  destruct (as_list v' w5) as [[evs|e| |] w6]; try done.
  unfold bind at 1. destruct (steady_logs_scan evs false w6) as [Hn6 Hr6].
  destruct (logs_scan evs false w6) as [[[|]|e| |] w7]; try done.
  - unfold bind. destruct (steady_time_sleep refresh w7) as [Hn7 Hr7].
    by destruct (time_sleep refresh w7) as [[[]|e| |] w8].
  - unfold bind, ret. apply IH. simpl in *.
    rewrite Hn6, Hn5, Hn4, Hn3, Hn2, Hn1. lia.
Qed.

(** [events] and [logs] are never stopped by the bound on the number of
    polls. *)
Lemma events_not_out_of_fuel (self : Job.t) (live : bool) (refresh : Z) (w : World) :
  fst (events getAccessToken self live refresh w) ≠ OutOfFuel.
Proof.
  unfold events. destruct live; cbn [negb].
  - apply events_loop_fuel. lia.
  - unfold bind. pose proof (status_takes_one self w) as Hst.
    destruct (status getAccessToken self w) as [[st|e| |] w1]; try done.
    apply steady_getitem.
Qed.

Lemma logs_not_out_of_fuel (self : Job.t) (live : bool) (refresh : Z) (w : World) :
  fst (logs getAccessToken self live refresh w) ≠ OutOfFuel.
Proof.
  unfold logs. destruct live; cbn [negb].
  - apply logs_loop_fuel. lia.
  - unfold bind. pose proof (status_takes_one self w) as Hst.
    destruct (status getAccessToken self w) as [[st|e| |] w1]; try done.
    apply steady_getitem.
Qed.

End Fuel.

(** A token manager to run the client on concrete inputs. *)
Definition sample_token (j : JAT) : pyval :=
  match jat_secretToken j with
  | PStr s => PStr ("token-" +:+ s)
  | _ => PStr "token"
  end.

Definition initial_body : gmap string pyval :=
  <["param" := PDict ∅]> (<["env" := PDict ∅]>
    (<["slurm" := PDict ∅]> {[ "executableFolder" := PNone ]})).

Definition sample_job : Job.t :=
  Job.mk (mkJAT "md5" (PStr "j1") (PStr "s3cr3t")) TheClient (PStr "community")
         PNone (PStr "j1") (PStr "keeling") initial_body.

Definition empty_world (script : list reply) : World :=
  mkWorld "/home/user" "posix" ∅ ∅ script [].

(** ** Configuration: [set] *)

(** The keyword argument of [set] that a key of the body receives. *)
Definition set_field (k : string)
    (executableFolder dataFolder resultFolder param env slurm : pyval) : pyval :=
  if String.eqb k "executableFolder" then executableFolder
  else if String.eqb k "dataFolder" then dataFolder
  else if String.eqb k "resultFolder" then resultFolder
  else if String.eqb k "param" then param
  else if String.eqb k "env" then env
  else if String.eqb k "slurm" then slurm
  else PNone.

Lemma set_body_lookup (self : Job.t) (ef df rf p e s : pyval) (w : World) (k : string) :
  body (after self (fst (set self ef df rf p e s w))) !! k =
  if truthy (set_field k ef df rf p e s)
  then Some (set_field k ef df rf p e s)
  else body self !! k.
Proof.
  unfold set, set_field, bind, emit, ret, after, with_body; simpl.
  repeat match goal with
         | |- context [String.eqb k ?x] =>
             destruct (String.eqb_spec k x) as [->|?]
         end;
  repeat match goal with
         | |- context [truthy ?v] => is_var v; destruct (truthy v)
         end;
  simplify_map_eq; reflexivity.
Qed.

(** C4 (as amended): [set] merges exactly the truthy fields.  After one
    call a key of the body holds the argument given for it when that
    argument is truthy and its prior value otherwise, so a field passed as
    [None] (or as an empty string or map) is left as it was; a call with
    every field [None] leaves the job as it was; and after two calls a key
    holds the truthy argument of the second call, else the truthy argument
    of the first, else its prior value, so the truthy fields of two calls
    on disjoint fields are all present. *)
Theorem set_merges_truthy_fields
    (self : Job.t) (ef df rf p e s ef' df' rf' p' e' s' : pyval)
    (w w' : World) (k : string) :
  let s1 := after self (fst (set self ef df rf p e s w)) in
  let s2 := after s1 (fst (set s1 ef' df' rf' p' e' s' w')) in
  body s1 !! k =
    (if truthy (set_field k ef df rf p e s)
     then Some (set_field k ef df rf p e s) else body self !! k)
  ∧ after self (fst (set self PNone PNone PNone PNone PNone PNone w)) = self
  ∧ body s2 !! k =
    (if truthy (set_field k ef' df' rf' p' e' s')
     then Some (set_field k ef' df' rf' p' e' s')
     else if truthy (set_field k ef df rf p e s)
          then Some (set_field k ef df rf p e s) else body self !! k).
Proof.
  intros s1 s2. split; [|split].
  - apply set_body_lookup.
  - by destruct self.
  - unfold s2. rewrite set_body_lookup. unfold s1. rewrite set_body_lookup.
    reflexivity.
Qed.

(** C4, as stated, fails: an empty string is not [None], yet [set] does not
    store it, so after two calls on disjoint fields the first call's field
    is absent from the body. *)
Lemma set_drops_empty_string :
  let s1 := after sample_job
              (fst (set sample_job PNone (PStr "") PNone PNone PNone PNone
                      (empty_world []))) in
  let s2 := after s1
              (fst (set s1 PNone PNone PNone PNone
                      (PDict {[ "OMP" := PStr "4" ]}) PNone (empty_world []))) in
  is_none (PStr "") = false
  ∧ body s2 !! "dataFolder" = None
  ∧ body s2 !! "env" = Some (PDict {[ "OMP" := PStr "4" ]}).
Proof. vm_compute. auto. Qed.

(** ** Uploading the executable folder *)

Section Upload.
Variable getAccessToken : JAT -> pyval.

Lemma upload_after (self : Job.t) (folder_path : string) (w : World) :
  let self' := after self (fst (uploadExecutableFolder getAccessToken self folder_path w)) in
  (self' = self ∨ ∃ file, self' = with_body self (<["executableFolder" := file]> (body self))).
Proof.
  unfold uploadExecutableFolder. run.
  destruct (client self); run; auto.
  destruct (net w) as [|[v|msg] rest]; run; auto.
  destruct v; run; auto.
  destruct (d !! "file") eqn:E; run; eauto.
Qed.

(** C10: [uploadExecutableFolder] changes nothing of the job but the
    [executableFolder] entry of its body: whatever the transport answers,
    the body without that entry is as before (so [param], [env], [slurm],
    [dataFolder] and [resultFolder] are), and so are [id], [hpc] and
    [maintainer]. *)
Theorem uploadExecutableFolder_frame
    (self : Job.t) (folder_path : string) (w : World) :
  let self' := after self (fst (uploadExecutableFolder getAccessToken self folder_path w)) in
  delete "executableFolder" (body self') = delete "executableFolder" (body self)
  ∧ body self' !! "param" = body self !! "param"
  ∧ body self' !! "env" = body self !! "env"
  ∧ body self' !! "slurm" = body self !! "slurm"
  ∧ body self' !! "dataFolder" = body self !! "dataFolder"
  ∧ body self' !! "resultFolder" = body self !! "resultFolder"
  ∧ id self' = id self ∧ hpc self' = hpc self
  ∧ maintainer self' = maintainer self.
Proof.
  intros self'. destruct (upload_after self folder_path w) as [H|[file H]];
    fold self' in H; rewrite H; simpl.
  - repeat split.
  - rewrite delete_insert_eq. repeat split; by rewrite lookup_insert_ne.
Qed.

End Upload.

(** ** Construction *)

(** The identity file of job [i], as [__init__] names it. *)
Definition constructor_file (i : string) : string :=
  ("./job_constructor_" +:+ i) +:+ ".json".

(** The record [__init__] persists at a fresh registration. *)
Definition identity_record (secretToken id hpc maintainer : pyval) : pyval :=
  PDict (<["secretToken" := secretToken]> (<["id" := id]>
          (<["hpc" := hpc]> {[ "maintainer" := maintainer ]}))).

(** C7: construction fails before any request in both misuse cases.  With
    an id whose identity file does not exist it raises the missing-file
    error, and without id and without maintainer it raises the maintainer
    error; in both the world is left exactly as it was: nothing was sent,
    no answer of the transport was consumed, nothing was written. *)
Theorem construction_fails_fast
    (maintainer hpc user password isJupyter : pyval) (client : client_ref)
    (i : string) (w : World)
    (Hmissing : fs w !! resolve w (constructor_file i) = None) :
  __init__ maintainer hpc (PStr i) user password client isJupyter w =
    (Raised (Exception (("jobID provided but constructor file [job_constructor_"
                         +:+ i) +:+ ".json] not found")), w)
  ∧ __init__ PNone hpc PNone user password client isJupyter w =
    (Raised (Exception "maintainer cannot by NoneType"), w).
Proof.
  split.
  - unfold __init__, constructor_file in *. run. rewrite Hmissing.
    rewrite bool_decide_eq_false_2; [reflexivity|].
    intros [? ?]; discriminate.
  - reflexivity.
Qed.

Lemma construction_fails_fast_witness :
  __init__ (PStr "community") PNone (PStr "j404") PNone PNone TheClient PNone
    (empty_world [Reply PNone]) =
    (Raised (Exception "jobID provided but constructor file [job_constructor_j404.json] not found"),
     empty_world [Reply PNone])
  ∧ __init__ PNone PNone PNone PNone PNone TheClient PNone
      (empty_world [Reply PNone]) =
    (Raised (Exception "maintainer cannot by NoneType"),
     empty_world [Reply PNone]).
Proof.
  apply (construction_fails_fast (PStr "community") PNone PNone PNone PNone
           TheClient "j404" (empty_world [Reply PNone])).
  vm_compute. reflexivity.
Defined.

(** What a fresh registration leaves on disk, whatever the password. *)
Lemma fresh_registration_fs
    (maintainer hpc user password isJupyter : pyval) (client : client_ref)
    (w : World) :
  let run := __init__ maintainer hpc PNone user password client isJupyter w in
  match fst run with
  | Ok self =>
      ∃ i, id self = PStr i
           ∧ Job.maintainer self = maintainer
           ∧ fs (snd run) =
             <[resolve w (constructor_file i) :=
                 identity_record (jat_secretToken (JAT_ self)) (id self)
                   (Job.hpc self) maintainer]> (fs w)
  | _ => fs (snd run) = fs w
  end.
Proof.
  unfold __init__, constructor_file, identity_record.
  crunch; try reflexivity; eauto.
Qed.

Lemma fresh_registration_fs_password
    (maintainer hpc user password password' isJupyter : pyval)
    (client : client_ref) (w : World) :
  fs (snd (__init__ maintainer hpc PNone user password client isJupyter w)) =
  fs (snd (__init__ maintainer hpc PNone user password' client isJupyter w)).
Proof.
  unfold __init__. crunch; reflexivity.
Qed.

(** What an answered registration returns and leaves on disk. *)
Lemma fresh_registration_written
    (maintainer hpc user password isJupyter : pyval) (w : World)
    (d : gmap string pyval) (rest : list reply) (i : string) (sT h : pyval) :
  is_none maintainer = false →
  net w = Reply (PDict d) :: rest →
  d !! "hpc" = Some h → d !! "secretToken" = Some sT →
  d !! "id" = Some (PStr i) →
  let run := __init__ maintainer hpc PNone user password TheClient isJupyter w in
  fst run = Ok (Job.mk (mkJAT "md5" (PStr i) sT) TheClient maintainer isJupyter
                  (PStr i) h initial_body)
  ∧ fs (snd run) =
    <[resolve w (constructor_file i) :=
        identity_record sT (PStr i) h maintainer]> (fs w).
Proof.
  intros Hm Hnet Hh HsT Hi.
  unfold __init__, constructor_file, identity_record, initial_body.
  cbn [is_none negb]. rewrite Hm.
  destruct (is_none hpc), (is_none user), (is_none password);
    repeat (progress (run; rewrite ?Hnet, ?Hh, ?HsT, ?Hi));
    split; reflexivity.
Qed.

(** C9: the identity file of a fresh registration holds exactly the record
    of [secretToken], [id], [hpc] and [maintainer], under the name derived
    from the id, and nothing else is written (nothing at all when the
    registration fails); two fresh registrations that differ only in the
    password, the transport answering the same, leave the same files: the
    password is not persisted.  A registration with a maintainer that the
    service answers with an [hpc], a [secretToken] and a string [id] does
    succeed, and writes that record with the values of the answer. *)
Theorem identity_file_excludes_password
    (maintainer hpc user password password' isJupyter : pyval)
    (client : client_ref) (w : World) :
  let run := __init__ maintainer hpc PNone user password client isJupyter w in
  let run' := __init__ maintainer hpc PNone user password' client isJupyter w in
  fs (snd run) = fs (snd run')
  ∧ match fst run with
    | Ok self =>
        ∃ i, id self = PStr i
             ∧ fs (snd run) =
               <[resolve w (constructor_file i) :=
                   PDict (list_to_map
                            [("secretToken", jat_secretToken (JAT_ self));
                             ("id", id self);
                             ("hpc", Job.hpc self);
                             ("maintainer", Job.maintainer self)])]> (fs w)
    | _ => fs (snd run) = fs w
    end
  ∧ ∀ (d : gmap string pyval) (rest : list reply) (i : string)
      (sT h : pyval),
      client = TheClient → is_none maintainer = false →
      net w = Reply (PDict d) :: rest →
      d !! "hpc" = Some h → d !! "secretToken" = Some sT →
      d !! "id" = Some (PStr i) →
      ∃ self,
        fst run = Ok self
        ∧ id self = PStr i
        ∧ fs (snd run) =
          <[resolve w (constructor_file i) :=
              PDict (list_to_map
                       [("secretToken", sT); ("id", PStr i); ("hpc", h);
                        ("maintainer", maintainer)])]> (fs w).
Proof.
  intros run run'. split; [|split].
  - apply fresh_registration_fs_password.
  - pose proof (fresh_registration_fs maintainer hpc user password isJupyter
                  client w) as H.
    cbv zeta in H. fold run in H. destruct (fst run); try exact H.
    destruct H as (i & Hi & Hm & Hfs). exists i. split; [exact Hi|].
    rewrite Hfs, Hm. reflexivity.
  - intros d rest i sT h -> Hm Hnet Hh HsT Hi.
    destruct (fresh_registration_written maintainer hpc user password
                isJupyter w d rest i sT h Hm Hnet Hh HsT Hi) as [Hok Hfs].
    eexists. split; [exact Hok|]. split; [reflexivity|]. exact Hfs.
Qed.

(** The answer of the service to a registration. *)
Definition registration : reply :=
  Reply (PDict (<["id" := PStr "j1"]> (<["hpc" := PStr "keeling"]>
                 {[ "secretToken" := PStr "s3cr3t" ]}))).

(** A registration with a user and a password that the service answers:
    the file written holds the four entries of the record, and is the
    file written without the password. *)
Lemma identity_file_excludes_password_witness :
  let w := empty_world [registration] in
  let run := __init__ (PStr "community") PNone PNone (PStr "alice")
               (PStr "hunter2") TheClient PNone w in
  let run' := __init__ (PStr "community") PNone PNone (PStr "alice")
                PNone TheClient PNone w in
  fs (snd run) = fs (snd run')
  ∧ ∃ self,
      fst run = Ok self
      ∧ id self = PStr "j1"
      ∧ fs (snd run) =
        <[resolve w (constructor_file "j1") :=
            PDict (list_to_map
                     [("secretToken", PStr "s3cr3t"); ("id", PStr "j1");
                      ("hpc", PStr "keeling");
                      ("maintainer", PStr "community")])]> (fs w).
Proof.
  intros w run run'.
  pose proof (identity_file_excludes_password (PStr "community") PNone
                (PStr "alice") (PStr "hunter2") PNone PNone TheClient w)
    as (Hsame & _ & Hwritten).
  split; [exact Hsame|].
  apply (Hwritten
           (<["id" := PStr "j1"]> (<["hpc" := PStr "keeling"]>
              {[ "secretToken" := PStr "s3cr3t" ]})) []);
    reflexivity.
Defined.

(** ** Result locators: splitting at [://] *)

(** [split], [replace] and [os.path.join] on the inputs of the client. *)
Example split_locator : Str.split "://" "local://abc123" = ["local"; "abc123"].
Proof. reflexivity. Qed.

Example split_thrice : Str.split "://" "a://b://" = ["a"; "b"; ""].
Proof. reflexivity. Qed.

Example replace_all : Str.replace "/a" "" "/a/x/a/y" = "/x/y".
Proof. reflexivity. Qed.

Example join_rel : os_path_join "/sub" "f.txt" = "/sub/f.txt".
Proof. reflexivity. Qed.

Module StrFacts.

Lemma prefix_spec (a s : string) :
  String.prefix a s = true ↔ ∃ r, s = a +:+ r.
Proof.
  revert s. induction a as [|c a IH]; intros s; simpl.
  - split; [intros _; by exists s | by destruct s].
  - destruct s as [|c' s]; simpl.
    + split; [discriminate | intros [r Hr]; discriminate].
    + destruct (ascii_dec c c') as [->|Hne].
      * rewrite IH. split.
        -- intros [r ->]. by exists r.
        -- intros [r Hr]. injection Hr as ->. by exists r.
      * split; [discriminate|]. intros [r Hr]. injection Hr as -> _. done.
Qed.

Lemma split_go_cons (sep cur s : string) (c : ascii) :
  Str.split_go sep 0 cur (String c s) =
  if String.prefix sep (String c s)
  then cur :: Str.split_go sep (Nat.pred (String.length sep)) "" s
  else Str.split_go sep 0 (cur +:+ String c "") s.
Proof. reflexivity. Qed.

Lemma count_cons (sep s : string) (c : ascii) :
  Str.count sep (String c s) =
  ((if String.prefix sep (String c s) then 1 else 0) + Str.count sep s)%nat.
Proof. reflexivity. Qed.

Lemma app_cons (c : ascii) (s t : string) :
  String c s +:+ t = String c (s +:+ t).
Proof. reflexivity. Qed.

Lemma app_nil_r (s : string) : s +:+ "" = s.
Proof.
  induction s as [|c s IH]; [reflexivity | by rewrite app_cons, IH].
Qed.

Lemma app_assoc (a b c : string) : (a +:+ b) +:+ c = a +:+ (b +:+ c).
Proof.
  induction a as [|x a IH]; [reflexivity | by rewrite !app_cons, IH].
Qed.

(** The separator of result locators. *)
Definition sep : string := "://".

(** After a separator the scan resumes behind it, and no further
    separator starts inside it. *)
Lemma prefix_sep (rest : string) : String.prefix sep (sep +:+ rest) = true.
Proof. apply prefix_spec. by exists rest. Qed.

Lemma split_go_sep (cur rest : string) :
  Str.split_go sep 0 cur (sep +:+ rest) = cur :: Str.split_go sep 0 "" rest.
Proof.
  pose proof (prefix_sep rest) as H.
  change (sep +:+ rest) with (String ":" (String "/" (String "/" rest))) in *.
  rewrite split_go_cons, H. reflexivity.
Qed.

Lemma count_sep (rest : string) :
  Str.count sep (sep +:+ rest) = S (Str.count sep rest).
Proof.
  pose proof (prefix_sep rest) as H.
  change (sep +:+ rest) with (String ":" (String "/" (String "/" rest))) in *.
  rewrite count_cons, H. reflexivity.
Qed.



(** Without a separator the string is one piece. *)
Lemma split_go_none (s cur : string) :
  Str.count sep s = 0%nat → Str.split_go sep 0 cur s = [cur +:+ s].
Proof.
  revert cur. induction s as [|c s IH]; intros cur H.
  - by rewrite app_nil_r.
  - rewrite count_cons in H. rewrite split_go_cons.
    destruct (String.prefix sep (String c s)); [lia|].
    rewrite IH by lia. by rewrite app_assoc.
Qed.

Lemma count_app_sep (a b : string) : (1 ≤ Str.count sep (a +:+ sep +:+ b))%nat.
Proof.
  induction a as [|c a IH].
  - change (1 ≤ Str.count sep (sep +:+ b))%nat. rewrite count_sep. lia.
  - change (1 ≤ Str.count sep (String c (a +:+ sep +:+ b)))%nat.
    rewrite count_cons. lia.
Qed.

(** With exactly one separator the pieces are the scheme and the
    identifier. *)
Lemma split_go_one (scheme ident cur : string) :
  Str.count sep (scheme +:+ sep +:+ ident) = 1%nat →
  Str.split_go sep 0 cur (scheme +:+ sep +:+ ident) = [cur +:+ scheme; ident].
Proof.
  revert cur. induction scheme as [|c a IH]; intros cur H.
  - change (Str.count sep (sep +:+ ident) = 1%nat) in H.
    rewrite count_sep in H.
    change (Str.split_go sep 0 cur (sep +:+ ident) = [cur +:+ ""; ident]).
    rewrite split_go_sep, split_go_none by lia. by rewrite app_nil_r.
  - change (Str.count sep (String c (a +:+ sep +:+ ident)) = 1%nat) in H.
    rewrite count_cons in H.
    change (Str.split_go sep 0 cur (String c (a +:+ sep +:+ ident)) =
            [cur +:+ String c a; ident]).
    pose proof (count_app_sep a ident) as Hge.
    rewrite split_go_cons.
    destruct (String.prefix sep (String c (a +:+ sep +:+ ident))); [lia|].
    rewrite IH by lia. by rewrite app_assoc.
Qed.

Lemma split_one (scheme ident : string) :
  Str.count sep (scheme +:+ sep +:+ ident) = 1%nat →
  Str.split sep (scheme +:+ sep +:+ ident) = [scheme; ident].
Proof. intros H. unfold Str.split. by rewrite split_go_one. Qed.

End StrFacts.

(** ** Retrieving results: [downloadResultFolder] *)

Section Download.
Variable getAccessToken : JAT -> pyval.

(** The world after the status request of job [i] was sent and answered. *)
Definition after_status (self : Job.t) (i : string) (rest : list reply)
    (w : World) : World :=
  set_net rest
    (log (IoRequest "GET" ("/job/" +:+ i)
            (PDict (access_params getAccessToken self))) w).

Lemma download_status (self : Job.t) (dir : pyval) (w : World) (i : string)
    (d : gmap string pyval) (rest : list reply) :
  id self = PStr i → client self = TheClient →
  net w = Reply (PDict d) :: rest →
  downloadResultFolder getAccessToken self dir w =
  match d !! "resultFolder" with
  | None =>
      (Raised (Exception "executable folder is not ready"),
       after_status self i rest w)
  | Some resultFolder =>
      (i <- py_split resultFolder "://" ;;
       match i with
       | [fileType; fileId] =>
           if String.eqb fileType "globus" then
             client_attr self ;;;
             client_request (client self) "GET" "/file"
               (PDict (<["fileUrl" := resultFolder]>
                         (access_params getAccessToken self)))
           else if String.eqb fileType "local" then
             dir <- join_dir dir fileId ;;
             client_attr self ;;;
             dir <- client_download (client self) "GET" "/file"
                      (PDict (<["fileUrl" := resultFolder]>
                                (access_params getAccessToken self)))
                      dir ;;
             line <- str_add "file successfully downloaded under: " dir ;;
             emit (IoPrint line) ;;;
             ret dir
           else ret PNone
       | _ => raise (Exception "invalid result folder formate provided")
       end) (after_status self i rest w)
  end.
Proof.
  intros Hid Hclient Hnet.
  unfold downloadResultFolder, status, after_status, client_attr.
  rewrite Hid, Hclient. cbn [is_none].
  unfold bind at 1 2 3 4. unfold ret at 1, str_add at 1, ret at 1.
  unfold client_request, bind at 1, emit, answer. cbn [net log].
  rewrite Hnet. unfold bind at 1, py_in at 1, ret at 1.
  destruct (d !! "resultFolder") as [rf|] eqn:E.
  - rewrite bool_decide_eq_true_2 by eauto. cbn [negb].
    unfold bind at 1, getitem at 1. rewrite E. reflexivity.
  - rewrite bool_decide_eq_false_2 by (intros [? ?]; discriminate).
    reflexivity.
Qed.


(** C6: a locator with exactly one [://] whose scheme is neither [globus]
    nor [local] makes [downloadResultFolder] return [None]: no error is
    raised, and the status request is the only call made to the
    transport. *)
Theorem downloadResultFolder_unknown_scheme
    (self : Job.t) (dir : pyval) (w : World) (i : string)
    (d : gmap string pyval) (rest : list reply) (scheme ident : string)
    (Hid : id self = PStr i) (Hclient : client self = TheClient)
    (Hnet : net w = Reply (PDict d) :: rest)
    (Hloc : d !! "resultFolder" = Some (PStr (scheme +:+ "://" +:+ ident)))
    (Hone : Str.count "://" (scheme +:+ "://" +:+ ident) = 1%nat)
    (Hglobus : scheme ≠ "globus") (Hlocal : scheme ≠ "local") :
  downloadResultFolder getAccessToken self dir w =
    (Ok PNone, after_status self i rest w).
Proof.
  rewrite (download_status self dir w i d rest Hid Hclient Hnet), Hloc.
  unfold bind, py_split, ret.
  pose proof (StrFacts.split_one scheme ident Hone) as Hsplit.
  unfold StrFacts.sep in Hsplit. rewrite Hsplit.
  apply String.eqb_neq in Hglobus, Hlocal. rewrite Hglobus, Hlocal.
  reflexivity.
Qed.

End Download.

(** A status answer that carries the result locator [loc]. *)
Definition status_with_result (loc : string) : reply :=
  Reply (PDict {[ "resultFolder" := PStr loc ]}).



Lemma downloadResultFolder_unknown_scheme_witness :
  downloadResultFolder sample_token sample_job (PStr "out")
    (empty_world [status_with_result "s3://bucket"]) =
  (Ok PNone,
   after_status sample_token sample_job "j1" []
     (empty_world [status_with_result "s3://bucket"])).
Proof.
  apply (downloadResultFolder_unknown_scheme sample_token sample_job
           (PStr "out") (empty_world [status_with_result "s3://bucket"])
           "j1" {[ "resultFolder" := PStr "s3://bucket" ]} [] "s3" "bucket"
           eq_refl eq_refl eq_refl).
  - reflexivity.
  - reflexivity.
  - discriminate.
  - discriminate.
Defined.

(** ** Packaging the executable folder *)

(** The files below a folder with their paths relative to it, linked
    directories included: what the archive is claimed to hold. *)
Fixpoint walked_files (rel : string) (n : node) {struct n}
  : list (string * string) :=
  let below :=
    fix below (es : list (string * node)) : list (string * string) :=
      match es with
      | [] => []
      | (name, child) :: es' =>
          app
            match child with
            | File c => [(os_path_join rel name, c)]
            | _ => walked_files (os_path_join rel name) child
            end
            (below es')
      end in
  match n with
  | File _ => []
  | Dir es | SymlinkDir es => below es
  end.

(** A folder [/data] that holds a script and a sub-folder [data] with a
    script of the same name. *)
Definition nested_folder : node :=
  Dir [("run.sh", File "echo top");
       ("data", Dir [("run.sh", File "echo nested")])].

Definition upload_world : World :=
  mkWorld "/home/user" "posix" ∅ {[ "/data" := nested_folder ]}
          [Reply (PDict {[ "file" := PStr "local://exec1" ]})] [].

(** The walk of [uploadExecutableFolder] enters linked directories: a
    file below a link is staged, which it is not without [followlinks]. *)
Example walk_follows_links :
  let tree := Dir [("main.py", File "print(1)");
                   ("lib", SymlinkDir [("util.py", File "x = 1")])] in
  os_walk true "/job" tree =
    [("/job", ["lib"], [("main.py", "print(1)")]);
     ("/job/lib", [], [("util.py", "x = 1")])]
  ∧ os_walk false "/job" tree = [("/job", ["lib"], [("main.py", "print(1)")])]
  ∧ stage "/job" (os_walk true "/job" tree) =
    [("main.py", "print(1)"); ("/lib/util.py", "x = 1")].
Proof. vm_compute. repeat split; reflexivity. Qed.

(** C8 fails on the code: [root.replace(folder_path, '')] deletes every
    occurrence of the folder's path, not only the leading one.  In
    [/data] the file [data/run.sh] is walked under the root [/data/data],
    which the replacement empties, so it is staged as [run.sh], the path of
    the top-level script, and the pair for [data/run.sh] is not in the
    archive. *)
Theorem upload_stages_nested_file_at_top :
  os_walk true "/data" nested_folder =
    [("/data", ["data"], [("run.sh", "echo top")]);
     ("/data/data", [], [("run.sh", "echo nested")])]
  ∧ walked_files "" nested_folder =
    [("run.sh", "echo top"); ("data/run.sh", "echo nested")]
  ∧ out (snd (uploadExecutableFolder sample_token sample_job "/data"
                upload_world)) =
    [IoUpload "/file" (PDict {[ "accessToken" := PStr "token-s3cr3t" ]})
       [("run.sh", "echo top"); ("run.sh", "echo nested")]]
  ∧ ("data/run.sh", "echo nested") ∉
    stage "/data" (os_walk true "/data" nested_folder).
Proof.
  repeat split; try (vm_compute; reflexivity).
  assert (stage "/data" (os_walk true "/data" nested_folder) =
          [("run.sh", "echo top"); ("run.sh", "echo nested")]) as ->
    by (vm_compute; reflexivity).
  intros H. apply elem_of_cons in H as [H|H]; [discriminate|].
  apply elem_of_cons in H as [H|H]; [discriminate|].
  by apply elem_of_nil in H.
Qed.

(** ** Watching logs *)

Definition event (ty msg : string) : pyval :=
  PDict (<["type" := PStr ty]> (<["message" := PStr msg]>
          {[ "createdAt" := PStr "2021-01-01T00:00:00" ]})).

Definition log_entry (msg : string) : pyval :=
  PDict (<["message" := PStr msg]>
          {[ "createdAt" := PStr "2021-01-01T00:00:00" ]}).

Definition status_of (events logs : list pyval) : reply :=
  Reply (PDict (<["events" := PList events]> {[ "logs" := PList logs ]})).

(** C2 fails on the code: [logs] sleeps when the terminal event has been
    found ([if isEnd: time.sleep(...)]) and not when it is missing.  With a
    first status whose only event is [JOB_INIT] and a second one that ends
    the job, the second poll follows the first at once, and the sleep comes
    after the terminal event, just before [logs] returns. *)
Theorem logs_sleeps_only_at_the_end :
  let script :=
    [status_of [event "JOB_INIT" "initialized"] [];
     status_of [event "JOB_INIT" "initialized"; event "JOB_ENDED" "done"]
               [log_entry "hello"]] in
  let poll := IoRequest "GET" "/job/j1"
                (PDict {[ "accessToken" := PStr "token-s3cr3t" ]}) in
  let run := logs sample_token sample_job true 15 (empty_world script) in
  fst run = Ok PNone
  ∧ out (snd run) =
    [poll;
     poll;
     IoSystem "clear";
     IoPrint "📮 Job ID: j1";
     IoPrint "💻 HPC: keeling";
     IoPrint "🤖 Maintainer: community";
     IoTable false ["message"; "time"]
       [[PStr "hello"; PStr "2021-01-01T00:00:00"]];
     IoSleep 15].
Proof. vm_compute. split; reflexivity. Qed.

(** *** Where [logs] sleeps *)

Definition is_sleep (e : io) : bool :=
  match e with IoSleep _ => true | _ => false end.

(** A trace without a sleep. *)
Definition sleepless (tr : list io) : Prop :=
  forallb (λ e, negb (is_sleep e)) tr = true.

(** A computation that extends the log by a trace which, with the result,
    satisfies [Q]. *)
Definition extends {A} (Q : result A → list io → Prop) (m : M A) : Prop :=
  ∀ w, ∃ tr, out (snd (m w)) = out w ++ tr ∧ Q (fst (m w)) tr.

(** A computation that never sleeps. *)
Definition quiet {A} (m : M A) : Prop := extends (λ _ tr, sleepless tr) m.

Lemma quiet_ret {A} (a : A) : quiet (ret a).
Proof. intros w. exists []. by rewrite app_nil_r. Qed.

Lemma quiet_raise {A} (e : exn) : quiet (raise (A:=A) e).
Proof. intros w. exists []. by rewrite app_nil_r. Qed.

Lemma quiet_emit (e : io) : is_sleep e = false → quiet (emit e).
Proof. intros H w. exists [e]. unfold sleepless. simpl. by rewrite H. Qed.

Lemma sleepless_app (tr1 tr2 : list io) :
  sleepless tr1 → sleepless tr2 → sleepless (tr1 ++ tr2).
Proof. unfold sleepless. rewrite forallb_app. by intros -> ->. Qed.

(** Sequencing after a quiet computation keeps any property of the
    continuation that quiet prefixes and quiet failures respect. *)
Lemma extends_bind {A B} (Q : result B → list io → Prop) (m : M A) (k : A → M B) :
  (∀ r tr, sleepless tr → (∀ b, r ≠ Ok b) → Q r tr) →
  (∀ r tr0 tr, sleepless tr0 → Q r tr → Q r (tr0 ++ tr)) →
  quiet m → (∀ a, extends Q (k a)) → extends Q (bind m k).
Proof.
  intros Hfail Hpre Hm Hk w. unfold bind. destruct (Hm w) as (tr0 & Hout & Hq).
  destruct (m w) as [[a|e| |] w1]; simpl in *;
    try (exists tr0; split; [done | by apply Hfail]).
  destruct (Hk a w1) as (tr & Hout' & HQ).
  exists (tr0 ++ tr). rewrite Hout', Hout, app_assoc. split; [done|].
  by apply Hpre.
Qed.

Lemma quiet_bind {A B} (m : M A) (k : A → M B) :
  quiet m → (∀ a, quiet (k a)) → quiet (bind m k).
Proof.
  apply extends_bind; [done|]. intros _ tr0 tr. apply sleepless_app.
Qed.

Lemma quiet_getitem (v : pyval) (k : string) : quiet (getitem v k).
Proof.
  unfold getitem. destruct v; try apply quiet_raise.
  destruct (d !! k); [apply quiet_ret | apply quiet_raise].
Qed.

Lemma quiet_str_add (s : string) (v : pyval) : quiet (str_add s v).
Proof. destruct v; try apply quiet_raise. apply quiet_ret. Qed.

Lemma quiet_as_list (v : pyval) : quiet (as_list v).
Proof. destruct v; try apply quiet_raise. apply quiet_ret. Qed.

Lemma quiet_clear (self : Job.t) : quiet (_clear self).
Proof.
  unfold _clear. apply quiet_bind.
  - destruct (truthy (isJupyter self)); [by apply quiet_emit | apply quiet_ret].
  - intros _ w. destruct (String.eqb (os_name w) "nt"); by apply quiet_emit.
Qed.

Ltac quiet_step :=
  first [ apply quiet_ret | apply quiet_raise | apply quiet_emit; reflexivity
        | apply quiet_getitem | apply quiet_str_add | apply quiet_as_list
        | apply quiet_clear
        | apply quiet_bind; [|intros ?] ].

Lemma quiet_print_banner (self : Job.t) : quiet (print_banner self).
Proof. unfold print_banner. repeat quiet_step. Qed.

Lemma quiet_logs_flush (self : Job.t) (todo : list pyval) :
  ∀ logs, quiet (logs_flush self todo logs).
Proof.
  induction todo as [|o todo IH]; intros logs; [apply quiet_ret|].
  cbn [logs_flush].
  repeat first [apply IH | apply quiet_print_banner | quiet_step].
Qed.

Lemma quiet_logs_scan (evs : list pyval) : ∀ isEnd, quiet (logs_scan evs isEnd).
Proof.
  induction evs as [|e evs IH]; intros isEnd; [apply quiet_ret|].
  cbn [logs_scan]. apply quiet_bind; [apply quiet_getitem|]. intros ty.
  destruct (eq_str ty JOB_ENDED || eq_str ty JOB_FAILED);
    [apply quiet_ret | apply IH].
Qed.

Section LogsSleep.
Variable getAccessToken : JAT -> pyval.

Lemma quiet_status (self : Job.t) : quiet (status getAccessToken self).
Proof.
  unfold status, client_attr, client_request.
  destruct (is_none (id self)); [apply quiet_raise|].
  destruct (client self); [repeat quiet_step|].
  repeat quiet_step.
  intros w. unfold answer. exists [].
  destruct (net w) as [|[v|msg] rest]; simpl; by rewrite app_nil_r.
Qed.

(** A trace in which the only sleep, if any, is the last effect, the
    computation then returning [None]. *)
Definition sleeps_last (refresh : Z) (r : result pyval) (tr : list io) : Prop :=
  sleepless tr
  ∨ ∃ tr', tr = tr' ++ [IoSleep refresh] ∧ sleepless tr' ∧ r = Ok PNone.

(** Whatever the transport answers, [logs] never sleeps between two polls:
    it sleeps at most once, as its last effect before it returns. *)
Lemma logs_loop_sleeps_last (self : Job.t) (refresh : Z) (fuel : nat) :
  ∀ logs, extends (sleeps_last refresh)
            (logs_loop getAccessToken fuel self refresh logs).
Proof.
  assert (Hfail : ∀ (r : result pyval) tr,
             sleepless tr → (∀ b, r ≠ Ok b) → sleeps_last refresh r tr)
    by (intros; by left).
  assert (Hpre : ∀ (r : result pyval) tr0 tr,
             sleepless tr0 → sleeps_last refresh r tr →
             sleeps_last refresh r (tr0 ++ tr)).
  { intros r tr0 tr H0 [H|(tr' & -> & H & Hr)].
    - left. by apply sleepless_app.
    - right. exists (tr0 ++ tr'). rewrite app_assoc.
      repeat split; [by apply sleepless_app | done]. }
  induction fuel as [|fuel IH]; intros logs.
  - intros w. exists []. simpl. rewrite app_nil_r. split; [done|by left].
  - cbn [logs_loop].
    repeat (apply extends_bind; [exact Hfail | exact Hpre | | intros ?];
            [first [apply quiet_status | apply quiet_logs_flush
                   | apply quiet_logs_scan | quiet_step] |]).
    match goal with b : bool |- _ => destruct b end.
    + intros w. unfold bind, time_sleep, ret.
      destruct (refresh <? 0); simpl.
      * exists []. rewrite app_nil_r. split; [done|by left].
      * exists [IoSleep refresh]. split; [done|]. right. by exists [].
    + intros w. unfold bind, ret. apply IH.
Qed.

Lemma logs_sleeps_last (self : Job.t) (refresh : Z) :
  extends (sleeps_last refresh) (logs getAccessToken self true refresh).
Proof. intros w. apply logs_loop_sleeps_last. Qed.

End LogsSleep.

(** ** Restoring a job from its identity file *)

(** What a successful fresh registration returns and leaves behind. *)
Lemma fresh_registration_ok
    (maintainer hpc user password isJupyter : pyval) (client : client_ref)
    (w w' : World) (self : Job.t) :
  __init__ maintainer hpc PNone user password client isJupyter w = (Ok self, w') →
  ∃ i sT h,
    self = Job.mk (mkJAT "md5" (PStr i) sT) client maintainer isJupyter
             (PStr i) h initial_body
    ∧ is_none maintainer = false
    ∧ cwd w' = cwd w
    ∧ fs w' = <[resolve w (constructor_file i) :=
                  identity_record sT (PStr i) h maintainer]> (fs w).
Proof.
  unfold __init__, constructor_file, identity_record, initial_body.
  crunch; intros H; try discriminate; injection H as <- <-;
    eexists _, _, _; repeat split; reflexivity.
Qed.

(** ** Paths in normal form *)

Module PathFacts.
Import StrFacts.

(** A component: a string without separator. *)
Fixpoint no_slash (s : string) : bool :=
  match s with
  | EmptyString => true
  | String c s' => negb (Ascii.eqb c "/") && no_slash s'
  end.

(** A component that [normpath] keeps in an absolute path. *)
Definition clean (c : string) : Prop :=
  c ≠ "" ∧ c ≠ "." ∧ c ≠ ".." ∧ no_slash c = true.

Lemma prefix_nil (s : string) : String.prefix "" s = true.
Proof. by destruct s. Qed.

Lemma prefix_slash (c : ascii) (s : string) :
  String.prefix "/" (String c s) = Ascii.eqb c "/".
Proof.
  cbn [String.prefix]. destruct (ascii_dec "/" c) as [<-|Hne].
  - by rewrite prefix_nil.
  - symmetry. apply Ascii.eqb_neq. congruence.
Qed.

Lemma split_slash_cons (cur s : string) (c : ascii) :
  Str.split_go "/" 0 cur (String c s) =
  if Ascii.eqb c "/" then cur :: Str.split_go "/" 0 "" s
  else Str.split_go "/" 0 (cur +:+ String c "") s.
Proof. by rewrite split_go_cons, prefix_slash. Qed.

Lemma split_go_app (a b : string) :
  ∀ cur,
    Str.split_go "/" 0 cur (a +:+ String "/" b) =
    Str.split_go "/" 0 cur a ++ Str.split_go "/" 0 "" b.
Proof.
  induction a as [|c a IH]; intros cur.
  - change ("" +:+ String "/" b) with (String "/" b).
    by rewrite split_slash_cons.
  - rewrite app_cons, !split_slash_cons. destruct (Ascii.eqb c "/").
    + by rewrite IH.
    + apply IH.
Qed.

Lemma split_app (a b : string) :
  Str.split "/" (a +:+ String "/" b) = Str.split "/" a ++ Str.split "/" b.
Proof. apply split_go_app. Qed.

Lemma split_go_no_slash (s : string) :
  ∀ cur, no_slash s = true → Str.split_go "/" 0 cur s = [cur +:+ s].
Proof.
  induction s as [|c s IH]; intros cur Hs.
  - by rewrite app_nil_r.
  - cbn [no_slash] in Hs. apply andb_true_iff in Hs as [Hc Hs].
    rewrite split_slash_cons. apply negb_true_iff in Hc. rewrite Hc.
    rewrite (IH _ Hs), app_assoc. done.
Qed.

Lemma split_no_slash (s : string) :
  no_slash s = true → Str.split "/" s = [s].
Proof. intros Hs. unfold Str.split. by rewrite split_go_no_slash. Qed.

Lemma no_slash_snoc (s : string) (c : ascii) :
  no_slash s = true → Ascii.eqb c "/" = false →
  no_slash (s +:+ String c "") = true.
Proof.
  intros Hs Hc. induction s as [|a s IH].
  - change ("" +:+ String c "") with (String c "").
    cbn [no_slash]. by rewrite Hc.
  - rewrite app_cons. cbn [no_slash] in *.
    apply andb_true_iff in Hs as [-> Hs]. by rewrite IH.
Qed.

Lemma split_go_no_slashes (s : string) :
  ∀ cur, no_slash cur = true →
    Forall (λ c, no_slash c = true) (Str.split_go "/" 0 cur s).
Proof.
  induction s as [|c s IH]; intros cur Hcur.
  - by constructor.
  - rewrite split_slash_cons. destruct (Ascii.eqb c "/") eqn:Hc.
    + constructor; [done|]. by apply IH.
    + apply IH. by apply no_slash_snoc.
Qed.

Lemma split_no_slashes (s : string) :
  Forall (λ c, no_slash c = true) (Str.split "/" s).
Proof. by apply split_go_no_slashes. Qed.

Lemma split_concat (c : string) (comps : list string) :
  Forall (λ c, no_slash c = true) (c :: comps) →
  Str.split "/" (String.concat "/" (c :: comps)) = c :: comps.
Proof.
  revert c. induction comps as [|c' comps IH]; intros c Hall.
  - apply split_no_slash. by apply Forall_inv in Hall.
  - apply Forall_cons in Hall as [Hc Hall].
    change (String.concat "/" (c :: c' :: comps))
      with (c +:+ String "/" (String.concat "/" (c' :: comps))).
    by rewrite split_app, split_no_slash, IH.
Qed.

(** *** The loop of [normpath] *)

Lemma Forall_removelast {A} (P : A → Prop) (l : list A) :
  Forall P l → Forall P (removelast l).
Proof.
  induction 1 as [|x l Hx Hl IH]; [constructor|].
  destruct l; [constructor|]. cbn [removelast]. by constructor.
Qed.

Lemma last_clean (acc : list string) :
  Forall clean acc →
  match last acc with Some c => String.eqb c ".." | None => false end = false.
Proof.
  intros Hacc. destruct (last acc) as [c|] eqn:E; [|done].
  apply last_Some in E as [l' ->]. apply Forall_app in Hacc as [_ Hc].
  apply Forall_inv in Hc. destruct Hc as (_ & _ & Hdd & _).
  by apply String.eqb_neq.
Qed.

Lemma norm_comp_absolute (k : nat) (acc : list string) (c : string) :
  k ≠ 0%nat → Forall clean acc →
  norm_comp k acc c =
  if String.eqb c "" || String.eqb c "." then acc
  else if String.eqb c ".." then removelast acc else acc ++ [c].
Proof.
  intros Hk Hacc. unfold norm_comp. rewrite (last_clean acc Hacc).
  destruct k; [done|]. cbn [Nat.eqb andb]. rewrite !orb_false_r.
  by destruct (String.eqb c "..").
Qed.

Lemma norm_comp_clean (k : nat) (acc : list string) (c : string) :
  k ≠ 0%nat → Forall clean acc → no_slash c = true →
  Forall clean (norm_comp k acc c).
Proof.
  intros Hk Hacc Hc. rewrite norm_comp_absolute by done.
  destruct (String.eqb_spec c "") as [->|H1]; [done|].
  destruct (String.eqb_spec c ".") as [->|H2]; [done|]. cbn [orb].
  destruct (String.eqb_spec c "..") as [->|H3].
  - by apply Forall_removelast.
  - apply Forall_app. split; [done|]. by repeat constructor.
Qed.

Lemma norm_fold_clean (k : nat) (l : list string) :
  k ≠ 0%nat → Forall (λ c, no_slash c = true) l →
  ∀ acc, Forall clean acc → Forall clean (fold_left (norm_comp k) l acc).
Proof.
  intros Hk. induction 1 as [|c l Hc Hl IH]; intros acc Hacc; [done|].
  cbn [fold_left]. apply IH. by apply norm_comp_clean.
Qed.

Lemma norm_fold_id (k : nat) (l : list string) :
  Forall clean l →
  ∀ acc, fold_left (norm_comp k) l acc = acc ++ l.
Proof.
  induction 1 as [|c l Hc Hl IH]; intros acc.
  - by rewrite List.app_nil_r.
  - cbn [fold_left]. destruct Hc as (H1 & H2 & H3 & _).
    unfold norm_comp at 2.
    apply String.eqb_neq in H1, H2, H3. rewrite H1, H2, H3. cbn [orb negb].
    rewrite IH, <- List.app_assoc. done.
Qed.

End PathFacts.

Module NormFacts.
Import StrFacts PathFacts.

Lemma prefix_cons (a b : ascii) (s t : string) :
  String.prefix (String a s) (String b t) =
  if Ascii.eqb a b then String.prefix s t else false.
Proof.
  cbn [String.prefix]. destruct (ascii_dec a b) as [->|Hne].
  - by rewrite Ascii.eqb_refl.
  - apply Ascii.eqb_neq in Hne. by rewrite Hne.
Qed.

Lemma eqb_cons_nil (a : ascii) (s : string) : String.eqb (String a s) "" = false.
Proof. reflexivity. Qed.

(** The shape of a normal absolute path: one or two slashes, then the
    components. *)
Definition shaped (k : nat) (comps : list string) : string :=
  Str.times "/" k +:+ String.concat "/" comps.

Lemma concat_relative (comps : list string) :
  Forall clean comps → String.prefix "/" (String.concat "/" comps) = false.
Proof.
  intros Hall. destruct Hall as [|c comps (Hne & _ & _ & Hc) _]; [done|].
  destruct c as [|a c]; [done|]. cbn [no_slash] in Hc.
  apply andb_true_iff in Hc as [Ha _]. apply negb_true_iff in Ha.
  assert (∃ r, String.concat "/" (String a c :: comps) = String a r) as [r ->].
  { destruct comps; cbn [String.concat]; [by eexists|].
    rewrite app_cons. by eexists. }
  by rewrite prefix_slash.
Qed.

Lemma initial_slashes_times (k : nat) (r : string) :
  (k = 1 ∨ k = 2)%nat → String.prefix "/" r = false →
  initial_slashes (Str.times "/" k +:+ r) = k.
Proof.
  intros [-> | ->] Hr; unfold initial_slashes.
  - change (Str.times "/" 1 +:+ r) with (String "/" r).
    rewrite !prefix_cons. change (Ascii.eqb "/" "/") with true.
    by rewrite !prefix_nil, Hr.
  - change (Str.times "/" 2 +:+ r) with (String "/" (String "/" r)).
    rewrite !prefix_cons. change (Ascii.eqb "/" "/") with true.
    by rewrite !prefix_nil, Hr.
Qed.

Lemma split_times (k : nat) (r : string) :
  (k = 1 ∨ k = 2)%nat →
  Str.split "/" (Str.times "/" k +:+ r) = replicate k "" ++ Str.split "/" r.
Proof.
  intros [-> | ->].
  - change (Str.times "/" 1 +:+ r) with ("" +:+ String "/" r).
    by rewrite split_app.
  - change (Str.times "/" 2 +:+ r) with ("/" +:+ String "/" r).
    by rewrite split_app.
Qed.

Lemma norm_fold_empties (k n : nat) (l acc : list string) :
  fold_left (norm_comp k) (replicate n "" ++ l) acc =
  fold_left (norm_comp k) l acc.
Proof. induction n as [|n IH]; [done|]. exact IH. Qed.

Lemma norm_fold_concat (k : nat) (comps : list string) :
  Forall clean comps →
  fold_left (norm_comp k) (Str.split "/" (String.concat "/" comps)) [] = comps.
Proof.
  intros Hall. destruct comps as [|c comps]; [done|].
  rewrite split_concat.
  - by rewrite norm_fold_id.
  - eapply Forall_impl; [exact Hall|]. by intros ? (_ & _ & _ & ?).
Qed.

(** A path of that shape is in normal form. *)
Lemma normpath_shaped (k : nat) (comps : list string) :
  (k = 1 ∨ k = 2)%nat → Forall clean comps →
  os_path_normpath (shaped k comps) = shaped k comps.
Proof.
  intros Hk Hall. unfold os_path_normpath.
  assert (String.eqb (shaped k comps) "" = false) as Hne
    by (by destruct Hk as [-> | ->]).
  rewrite Hne. cbv zeta. unfold shaped in *.
  rewrite (initial_slashes_times k _ Hk (concat_relative comps Hall)).
  rewrite (split_times k _ Hk), norm_fold_empties, norm_fold_concat by done.
  by rewrite Hne.
Qed.

(** The normal form of an absolute path has that shape. *)
Lemma normpath_absolute (p : string) :
  String.prefix "/" p = true →
  ∃ k comps, (k = 1 ∨ k = 2)%nat ∧ Forall clean comps
             ∧ os_path_normpath p = shaped k comps.
Proof.
  intros Habs. exists (initial_slashes p).
  exists (fold_left (norm_comp (initial_slashes p)) (Str.split "/" p) []).
  assert (initial_slashes p = 1 ∨ initial_slashes p = 2)%nat as Hk.
  { unfold initial_slashes. rewrite Habs.
    destruct (_ && _); [by right | by left]. }
  split; [exact Hk|]. split.
  - apply norm_fold_clean; [lia | apply split_no_slashes | constructor].
  - unfold os_path_normpath. destruct p as [|a p]; [done|].
    rewrite eqb_cons_nil. cbv zeta. fold (shaped (initial_slashes (String a p))
      (fold_left (norm_comp (initial_slashes (String a p)))
         (Str.split "/" (String a p)) [])).
    assert (String.eqb (shaped (initial_slashes (String a p))
      (fold_left (norm_comp (initial_slashes (String a p)))
         (Str.split "/" (String a p)) [])) "" = false) as ->; [|done].
    by destruct Hk as [-> | ->].
Qed.

Lemma shaped_absolute (k : nat) (comps : list string) :
  (k = 1 ∨ k = 2)%nat → String.prefix "/" (shaped k comps) = true.
Proof.
  intros [-> | ->].
  - change (shaped 1 comps) with (String "/" (String.concat "/" comps)).
    by rewrite prefix_slash.
  - change (shaped 2 comps)
      with (String "/" (String "/" (String.concat "/" comps))).
    by rewrite prefix_slash.
Qed.

(** [normpath] is idempotent on absolute paths, and keeps them
    absolute. *)
Lemma normpath_idempotent (p : string) :
  String.prefix "/" p = true →
  String.prefix "/" (os_path_normpath p) = true
  ∧ os_path_normpath (os_path_normpath p) = os_path_normpath p.
Proof.
  intros Habs. destruct (normpath_absolute p Habs) as (k & comps & Hk & Hall & ->).
  split; [by apply shaped_absolute | by apply normpath_shaped].
Qed.

End NormFacts.

Module AbsFacts.
Import StrFacts PathFacts NormFacts.

Lemma ends_with_slash_spec (a : string) :
  Str.ends_with_slash a = true → ∃ y, a = y +:+ "/".
Proof.
  induction a as [|c a IH]; [done|]. destruct a as [|c' a].
  - cbn [Str.ends_with_slash]. intros ->%Ascii.eqb_eq. by exists "".
  - intros H. destruct (IH H) as [y Hy]. exists (String c y).
    by rewrite app_cons, <- Hy.
Qed.

(** Joining a relative path to an absolute directory puts it behind the
    directory and one separator. *)
Lemma join_relative (cwd : string) :
  String.prefix "/" cwd = true →
  ∃ y, (y = "" ∨ String.prefix "/" y = true)
       ∧ ∀ q, String.prefix "/" q = false →
              os_path_join cwd q = y +:+ String "/" q.
Proof.
  intros Habs. destruct cwd as [|a cwd]; [done|].
  destruct (Str.ends_with_slash (String a cwd)) eqn:E.
  - destruct (ends_with_slash_spec _ E) as [y Hy]. exists y. split.
    + destruct y as [|b y]; [by left|right].
      rewrite app_cons in Hy. injection Hy as -> _.
      by rewrite prefix_slash in *.
    + intros q Hq. unfold os_path_join. rewrite Hq, eqb_cons_nil, E, Hy.
      by rewrite app_assoc.
  - exists (String a cwd). split; [by right|].
    intros q Hq. unfold os_path_join. by rewrite Hq, eqb_cons_nil, E.
Qed.

Lemma join_absolute (cwd q : string) :
  String.prefix "/" cwd = true →
  String.prefix "/" (if String.prefix "/" q then q else os_path_join cwd q)
  = true.
Proof.
  intros Habs. destruct (String.prefix "/" q) eqn:Hq; [done|].
  destruct (join_relative cwd Habs) as (y & Hy & ->); [|done].
  destruct Hy as [-> | Hy]; [apply prefix_slash|].
  destruct y as [|b y]; [done|]. by rewrite app_cons, prefix_slash in *.
Qed.

Lemma initial_slashes_base (y s1 s2 : string) :
  y = "" ∨ String.prefix "/" y = true →
  String.prefix "/" s1 = false → String.prefix "/" s2 = false →
  initial_slashes (y +:+ String "/" s1) = initial_slashes (y +:+ String "/" s2).
Proof.
  intros Hy H1 H2. unfold initial_slashes.
  destruct y as [|a [|b [|c y]]].
  - change ("" +:+ String "/" s1) with (String "/" s1).
    change ("" +:+ String "/" s2) with (String "/" s2).
    rewrite !prefix_cons. change (Ascii.eqb "/" "/") with true.
    by rewrite !prefix_nil, H1, H2.
  - rewrite !app_cons.
    change ("" +:+ String "/" s1) with (String "/" s1).
    change ("" +:+ String "/" s2) with (String "/" s2).
    rewrite !prefix_cons. change (Ascii.eqb "/" "/") with true.
    by rewrite !prefix_nil, H1, H2.
  - rewrite !app_cons.
    change ("" +:+ String "/" s1) with (String "/" s1).
    change ("" +:+ String "/" s2) with (String "/" s2).
    rewrite !prefix_cons. change (Ascii.eqb "/" "/") with true.
    by rewrite !prefix_nil.
  - rewrite !app_cons. rewrite !prefix_cons. by rewrite !prefix_nil.
Qed.

(** [abspath] of a path taken from an absolute working directory is
    absolute and names itself. *)
Lemma abspath_absolute (cwd p : string) :
  String.prefix "/" cwd = true →
  String.prefix "/" (abspath_of cwd p) = true
  ∧ abspath_of cwd (abspath_of cwd p) = abspath_of cwd p.
Proof.
  intros Habs. unfold abspath_of.
  destruct (normpath_idempotent _ (join_absolute cwd p Habs)) as [H1 H2].
  split; [exact H1|]. by rewrite H1.
Qed.

Lemma normpath_nonempty (a : string) (b : string) :
  String.eqb (a +:+ String "/" b) "" = false.
Proof. by destruct a. Qed.

(** A leading [./] does not change the file a relative path names. *)
Lemma abspath_dot (cwd n : string) :
  String.prefix "/" cwd = true → String.prefix "/" n = false →
  abspath_of cwd ("./" +:+ n) = abspath_of cwd n.
Proof.
  intros Habs Hn. unfold abspath_of.
  change ("./" +:+ n) with (String "." (String "/" n)).
  rewrite prefix_slash, Hn. change (Ascii.eqb "." "/") with false. cbv iota.
  destruct (join_relative cwd Habs) as (y & Hy & Hjoin).
  rewrite !Hjoin by (done || by rewrite prefix_slash).
  unfold os_path_normpath. rewrite !normpath_nonempty. cbv zeta.
  rewrite (initial_slashes_base y (String "." (String "/" n)) n Hy)
    by (done || by rewrite prefix_slash).
  change (String "." (String "/" n)) with ("." +:+ String "/" n).
  rewrite !split_app, !fold_left_app. done.
Qed.

End AbsFacts.

(** The name probed with [path.exists] and the absolute path opened are
    the same file when the working directory is absolute. *)
Lemma resolve_constructor_file (w : World) (i : string) :
  String.prefix "/" (cwd w) = true →
  resolve w (constructor_file i) =
  abspath_of (cwd w) (("job_constructor_" +:+ i) +:+ ".json")
  ∧ resolve w (abspath_of (cwd w) (("job_constructor_" +:+ i) +:+ ".json")) =
    abspath_of (cwd w) (("job_constructor_" +:+ i) +:+ ".json").
Proof.
  intros Habs. unfold resolve, constructor_file. split.
  - change (("./job_constructor_" +:+ i) +:+ ".json")
      with ("./" +:+ (("job_constructor_" +:+ i) +:+ ".json")).
    by apply AbsFacts.abspath_dot.
  - by apply AbsFacts.abspath_absolute.
Qed.

(** Restoring right after a fresh registration, with the id alone:
    whatever was registered, the restored job has the persisted [id] and
    [hpc], and no maintainer. *)
Lemma restore_after_fresh
    (maintainer hpc user password isJupyter isJupyter' : pyval)
    (client client' : client_ref) (w w' : World) (self : Job.t) :
  String.prefix "/" (cwd w) = true →
  __init__ maintainer hpc PNone user password client isJupyter w = (Ok self, w') →
  ∃ self',
    __init__ PNone PNone (id self) PNone PNone client' isJupyter' w' = (Ok self', w')
    ∧ id self' = id self
    ∧ Job.hpc self' = Job.hpc self
    ∧ Job.maintainer self' = PNone
    ∧ Job.maintainer self ≠ PNone.
Proof.
  intros Habs Hfresh.
  apply fresh_registration_ok in Hfresh as (i & sT & h & -> & Hm & Hcwd & Hfs).
  assert (String.prefix "/" (cwd w') = true) as Habs' by (by rewrite Hcwd).
  destruct (resolve_constructor_file w i Habs) as [Hprobe _].
  destruct (resolve_constructor_file w' i Habs') as [Hprobe' Hopen'].
  rewrite Hcwd in Hprobe', Hopen'.
  unfold __init__. cbn [id is_none negb].
  unfold constructor_file in *.
  autounfold with monad. cbn beta iota.
  rewrite Hprobe', Hfs, Hprobe, lookup_insert_eq.
  rewrite bool_decide_eq_true_2 by eauto. cbn beta iota.
  rewrite Hcwd, Hopen', Hfs, Hprobe, lookup_insert_eq.
  unfold identity_record. simpl.
  eexists. split; [reflexivity|]. simpl. repeat split.
  intros ->. discriminate.
Qed.

(** A restored job cannot be watched: the banner of [events] concatenates
    [self.maintainer], which is [None] after a restore. *)
Example events_on_restored_job :
  let fresh := __init__ (PStr "community") PNone PNone PNone PNone TheClient
                 PNone (empty_world [registration; status_of [event "JOB_INIT" "initialized"] []]) in
  let restored := __init__ PNone PNone (PStr "j1") PNone PNone TheClient PNone
                    (snd fresh) in
  match fst restored with
  | Ok self => fst (events sample_token self true 10 (snd restored))
  | _ => Blocked
  end = Raised TypeError.
Proof. vm_compute. reflexivity. Qed.

(** C3 fails on the code: [__init__] stores [self.maintainer] from its
    argument before the identity file is read, and the maintainer it then
    loads is never stored.  A job registered with maintainer [community]
    and restored from its id has the persisted [id] and [hpc] but
    [None] as maintainer, although the file holds [community]. *)
Theorem restore_forgets_maintainer :
  let fresh := __init__ (PStr "community") PNone PNone PNone PNone TheClient
                 PNone (empty_world [registration]) in
  let restored := __init__ PNone PNone (PStr "j1") PNone PNone TheClient PNone
                    (snd fresh) in
  fs (snd fresh) !! "/home/user/job_constructor_j1.json" =
    Some (identity_record (PStr "s3cr3t") (PStr "j1") (PStr "keeling")
            (PStr "community"))
  ∧ (id <$> fst_ok (fst fresh), Job.hpc <$> fst_ok (fst fresh),
     Job.maintainer <$> fst_ok (fst fresh)) =
    (Some (PStr "j1"), Some (PStr "keeling"), Some (PStr "community"))
  ∧ (id <$> fst_ok (fst restored), Job.hpc <$> fst_ok (fst restored),
     Job.maintainer <$> fst_ok (fst restored)) =
    (Some (PStr "j1"), Some (PStr "keeling"), Some PNone).
Proof. vm_compute. repeat split; reflexivity. Qed.

(** ** Watching events *)

(** The row [events] displays for an event: its type, message and time. *)
Definition event_row (o : pyval) : option (list pyval) :=
  match o with
  | PDict d =>
      match d !! "type", d !! "message", d !! "createdAt" with
      | Some ty, Some msg, Some at_ => Some [ty; msg; at_]
      | _, _, _ => None
      end
  | _ => None
  end.

(** The rows of the events a status answer carries. *)
Definition reply_rows (r : reply) : option (list (list pyval)) :=
  match r with
  | Reply (PDict d) =>
      match d !! "events" with
      | Some (PList l) => mapM event_row l
      | _ => None
      end
  | _ => None
  end.

Definition terminal_row (r : list pyval) : bool :=
  match r with
  | ty :: _ => is_terminal ty
  | [] => false
  end.

(** Logging a sequence of effects. *)
Definition log_all (l : list io) (w : World) : World :=
  fold_left (fun w e => log e w) l w.

Lemma log_all_app (l1 l2 : list io) (w : World) :
  log_all (l1 ++ l2) w = log_all l2 (log_all l1 w).
Proof. apply fold_left_app. Qed.

Lemma out_log_all (l : list io) (w : World) : out (log_all l w) = out w ++ l.
Proof.
  revert w. induction l as [|e l IH]; intros w; simpl.
  - by rewrite app_nil_r.
  - rewrite IH. simpl. by rewrite <- app_assoc.
Qed.

Lemma os_name_log_all (l : list io) (w : World) :
  os_name (log_all l w) = os_name w.
Proof. revert w. induction l as [|e l IH]; intros w; simpl; [done|by rewrite IH]. Qed.

Lemma net_log_all (l : list io) (w : World) : net (log_all l w) = net w.
Proof. revert w. induction l as [|e l IH]; intros w; simpl; [done|by rewrite IH]. Qed.

(** *** What a trace shows *)

(** The tables displayed, in order. *)
Definition tables (tr : list io) : list (list (list pyval)) :=
  flat_map (λ e, match e with IoTable _ _ rows => [rows] | _ => [] end) tr.

(** The number of requests sent to the service. *)
Definition is_request (e : io) : bool :=
  match e with IoRequest _ _ _ => true | _ => false end.

Definition requests (tr : list io) : nat :=
  length (List.filter is_request tr).

(** Effects that only write to the screen. *)
Definition display_only (e : io) : bool :=
  match e with
  | IoPrint _ | IoPrintDict _ | IoTable _ _ _ | IoClearOutput | IoSystem _ => true
  | _ => false
  end.

(** What follows the first display of a terminal event: the rest of the
    trace after the first table whose newest row is terminal. *)
Fixpoint after_terminal (tr : list io) : list io :=
  match tr with
  | [] => []
  | IoTable _ _ rows :: tr' =>
      if from_option terminal_row false (last rows) then tr'
      else after_terminal tr'
  | _ :: tr' => after_terminal tr'
  end.

(** *** What the polls hold *)

(** The new events of each poll, from the number [seen] of events already
    shown, up to and including the first poll that brings a terminal
    event. *)
Fixpoint batches (seen : nat) (polls : list (list (list pyval)))
  : list (list (list pyval)) :=
  match polls with
  | [] => []
  | p :: polls' =>
      let batch := drop seen p in
      batch :: (if existsb terminal_row batch then []
                else batches (seen + length batch) polls')
  end.

(** The table after each further row: [events] extended by one row of
    [rows] after the other. *)
Fixpoint growing (events rows : list (list pyval)) : list (list (list pyval)) :=
  match rows with
  | [] => []
  | r :: rows' => (events ++ [r]) :: growing (events ++ [r]) rows'
  end.

Lemma growing_app (events rows1 rows2 : list (list pyval)) :
  growing events (rows1 ++ rows2) =
  growing events rows1 ++ growing (events ++ rows1) rows2.
Proof.
  revert events. induction rows1 as [|r rows1 IH]; intros events; simpl.
  - by rewrite app_nil_r.
  - rewrite IH, <- app_assoc. done.
Qed.

Section Events.
Variable getAccessToken : JAT -> pyval.
Variable self : Job.t.
Variables (i h m : string) (refresh : Z).
Hypothesis Hid : id self = PStr i.
Hypothesis Hhpc : hpc self = PStr h.
Hypothesis Hmaintainer : maintainer self = PStr m.
Hypothesis Hclient : client self = TheClient.
Hypothesis Hrefresh : 0 <= refresh.

(** The status request of one poll. *)
Definition poll_io : io :=
  IoRequest "GET" ("/job/" +:+ i) (PDict (access_params getAccessToken self)).

(** What is shown for one event: the screen is cleared, then the banner
    and the table of the events seen so far are printed. *)
Definition frame_io (os : string) (rows : list (list pyval)) : list io :=
  (if truthy (isJupyter self) then [IoClearOutput] else []) ++
  [IoSystem (if String.eqb os "nt" then "cls" else "clear");
   IoPrint ("📮 Job ID: " +:+ i);
   IoPrint ("💻 HPC: " +:+ h);
   IoPrint ("🤖 Maintainer: " +:+ m);
   IoTable (truthy (isJupyter self)) ["types"; "message"; "time"] rows].

(** One frame per event of a batch, the table growing by one row. *)
Fixpoint flush_io (os : string) (events batch : list (list pyval)) : list io :=
  match batch with
  | [] => []
  | r :: batch' => frame_io os (events ++ [r]) ++ flush_io os (events ++ [r]) batch'
  end.

Lemma flush_run (todo : list pyval) (rows : list (list pyval)) :
  Forall2 (λ o r, event_row o = Some r) todo rows →
  ∀ events isEnd w,
    events_flush self todo events isEnd w =
    (Ok (events ++ rows, isEnd || existsb terminal_row rows),
     log_all (flush_io (os_name w) events rows) w).
Proof.
  induction 1 as [|o r todo rows Hrow _ IH]; intros events isEnd w.
  - simpl. rewrite app_nil_r, orb_false_r. reflexivity.
  - destruct o as [| | | | |d]; try discriminate. simpl in Hrow.
    destruct (d !! "type") as [ty|] eqn:Ety; [|discriminate].
    destruct (d !! "message") as [msg|] eqn:Emsg; [|discriminate].
    destruct (d !! "createdAt") as [at_|] eqn:Eat; [|discriminate].
    injection Hrow as <-.
    cbn [events_flush]. unfold _clear, print_banner.
    rewrite Hid, Hhpc, Hmaintainer.
    autounfold with monad. rewrite Ety, Emsg, Eat.
    unfold flush_io; fold flush_io. rewrite log_all_app. unfold frame_io.
    destruct (truthy (isJupyter self)); cbn [log_all fold_left app];
      destruct (String.eqb (os_name w) "nt") eqn:Eos; simpl;
      rewrite ?Eos; simpl; rewrite IH; simpl; unfold is_terminal;
      rewrite <- app_assoc, !orb_assoc; reflexivity.
Qed.

(** The effects of the polling loop on a sequence of polls, [events] being
    the rows seen so far: a request, the frames of the new events, and
    either the end of the loop or a sleep and the next poll.  When the
    answers run out the last request stays unanswered. *)
Fixpoint loop_io (os : string) (events : list (list pyval))
    (polls : list (list (list pyval))) : list io :=
  match polls with
  | [] => [poll_io]
  | p :: polls' =>
      let batch := drop (length events) p in
      poll_io :: flush_io os events batch ++
      (if existsb terminal_row batch then []
       else IoSleep refresh :: loop_io os (events ++ batch) polls')
  end.

Fixpoint loop_result (events : list (list pyval))
    (polls : list (list (list pyval))) : result pyval :=
  match polls with
  | [] => Blocked
  | p :: polls' =>
      let batch := drop (length events) p in
      if existsb terminal_row batch then Ok PNone
      else loop_result (events ++ batch) polls'
  end.

Lemma loop_run (polls : list (list (list pyval))) :
  ∀ fuel events w,
    Forall2 (λ r p, reply_rows r = Some p) (net w) polls →
    (length (net w) < fuel)%nat →
    fst (events_loop getAccessToken fuel self refresh events w) =
      loop_result events polls
    ∧ out (snd (events_loop getAccessToken fuel self refresh events w)) =
      out w ++ loop_io (os_name w) events polls.
Proof.
  induction polls as [|p polls IH]; intros fuel events w Hnet Hfuel;
    (destruct fuel as [|fuel]; [lia|]);
    cbn [events_loop]; unfold status, client_attr; rewrite Hid, Hclient;
    autounfold with monad; cbn [is_none net log].
  - apply Forall2_nil_inv_r in Hnet. rewrite Hnet. simpl. done.
  - apply Forall2_cons_inv_r in Hnet as (r & rest & Hr & Hrest & Hnet).
    rewrite Hnet in *. 
    destruct r as [[| | | | |d]|]; try discriminate. simpl in Hr.
    destruct (d !! "events") as [[| | | |l|]|] eqn:Eevents; try discriminate.
    apply mapM_Some in Hr.
    cbn [set_net net].
    rewrite (flush_run _ _ (Forall2_drop _ _ _ (length events) Hr)).
    cbn [orb os_name]. 
    destruct (existsb terminal_row (drop (length events) p)) eqn:Eend.
    + cbn [loop_result loop_io fst snd]. rewrite Eend.
      rewrite out_log_all. simpl. rewrite app_nil_r, <- app_assoc. done.
    + assert ((refresh <? 0) = false) as -> by lia.
      cbn [loop_result loop_io]. rewrite Eend.
      match goal with
      | |- context [events_loop _ _ _ _ _ ?w1] =>
          destruct (IH fuel (events ++ drop (length events) p) w1) as [H1 H2]
      end.
      * simpl. rewrite net_log_all. exact Hrest.
      * simpl. rewrite net_log_all. simpl. simpl in Hfuel. lia.
      * rewrite H1, H2. split; [done|].
        simpl. rewrite out_log_all, os_name_log_all. simpl.
        rewrite <- !app_assoc. done.
Qed.

Lemma tables_frame (os : string) (rows : list (list pyval)) :
  tables (frame_io os rows) = [rows].
Proof. unfold frame_io. by destruct (truthy (isJupyter self)). Qed.

Lemma tables_flush (os : string) (events batch : list (list pyval)) :
  tables (flush_io os events batch) = growing events batch.
Proof.
  revert events. induction batch as [|r batch IH]; intros events; [done|].
  simpl. unfold tables in *. rewrite flat_map_app.
  fold (tables (frame_io os (events ++ [r]))). rewrite tables_frame, IH. done.
Qed.

Lemma tables_loop (os : string) (polls : list (list (list pyval))) :
  ∀ events,
    tables (loop_io os events polls) =
    growing events (concat (batches (length events) polls)).
Proof.
  induction polls as [|p polls IH]; intros events; [done|].
  cbn [loop_io batches concat]. rewrite growing_app.
  change (tables (poll_io :: ?l)) with (tables l).
  unfold tables in *. rewrite flat_map_app.
  fold (tables (flush_io os events (drop (length events) p))).
  rewrite tables_flush. f_equal.
  destruct (existsb terminal_row (drop (length events) p)); [done|].
  change (flat_map ?f (IoSleep refresh :: ?l)) with (flat_map f l).
  rewrite IH, length_app. done.
Qed.

Lemma requests_frame (os : string) (rows : list (list pyval)) :
  requests (frame_io os rows) = 0%nat.
Proof. unfold frame_io. by destruct (truthy (isJupyter self)). Qed.

Lemma requests_app (tr1 tr2 : list io) :
  requests (tr1 ++ tr2) = (requests tr1 + requests tr2)%nat.
Proof. unfold requests. by rewrite List.filter_app, length_app. Qed.

Lemma requests_flush (os : string) (events batch : list (list pyval)) :
  requests (flush_io os events batch) = 0%nat.
Proof.
  revert events. induction batch as [|r batch IH]; intros events; [done|].
  simpl. by rewrite requests_app, requests_frame, IH.
Qed.

(** Whether some batch brings a terminal event. *)
Definition ended (bs : list (list (list pyval))) : bool :=
  existsb (existsb terminal_row) bs.

Lemma requests_loop (os : string) (polls : list (list (list pyval))) :
  ∀ events,
    requests (loop_io os events polls) =
    (length (batches (length events) polls) +
     if ended (batches (length events) polls) then 0 else 1)%nat.
Proof.
  induction polls as [|p polls IH]; intros events; [done|].
  cbn [loop_io batches ended existsb length].
  change (requests (poll_io :: ?l)) with (S (requests l)).
  rewrite requests_app, requests_flush.
  destruct (existsb terminal_row (drop (length events) p)); [done|].
  change (requests (IoSleep refresh :: ?l)) with (requests l).
  rewrite IH, length_app. done.
Qed.

Lemma result_loop (polls : list (list (list pyval))) :
  ∀ events,
    loop_result events polls =
    if ended (batches (length events) polls) then Ok PNone else Blocked.
Proof.
  induction polls as [|p polls IH]; intros events; [done|].
  cbn [loop_result batches ended existsb].
  destruct (existsb terminal_row (drop (length events) p)); [done|].
  rewrite IH, length_app. done.
Qed.

Lemma display_frame (os : string) (rows : list (list pyval)) :
  forallb display_only (frame_io os rows) = true.
Proof. unfold frame_io. by destruct (truthy (isJupyter self)). Qed.

Lemma display_flush (os : string) (events batch : list (list pyval)) :
  forallb display_only (flush_io os events batch) = true.
Proof.
  revert events. induction batch as [|r batch IH]; intros events; [done|].
  simpl. by rewrite forallb_app, display_frame, IH.
Qed.

Lemma after_terminal_frame (os : string) (events : list (list pyval))
    (r : list pyval) (tr : list io) :
  after_terminal (frame_io os (events ++ [r]) ++ tr) =
  if terminal_row r then tr else after_terminal tr.
Proof.
  unfold frame_io. destruct (truthy (isJupyter self)); simpl;
    by rewrite last_snoc.
Qed.

Lemma after_terminal_flush_none (os : string) (batch : list (list pyval)) :
  ∀ events tr,
    existsb terminal_row batch = false →
    after_terminal (flush_io os events batch ++ tr) = after_terminal tr.
Proof.
  induction batch as [|r batch IH]; intros events tr H; [done|].
  simpl in H. apply orb_false_iff in H as [Hr Hb].
  simpl. rewrite <- app_assoc, after_terminal_frame, Hr. by apply IH.
Qed.

Lemma after_terminal_flush_some (os : string) (batch : list (list pyval)) :
  ∀ events,
    forallb display_only (after_terminal (flush_io os events batch)) = true.
Proof.
  induction batch as [|r batch IH]; intros events; [done|].
  simpl. rewrite after_terminal_frame.
  destruct (terminal_row r); [apply display_flush | apply IH].
Qed.

Lemma after_terminal_loop (os : string) (polls : list (list (list pyval))) :
  ∀ events,
    forallb display_only (after_terminal (loop_io os events polls)) = true.
Proof.
  induction polls as [|p polls IH]; intros events; [done|].
  cbn [loop_io]. change (after_terminal (poll_io :: ?l)) with (after_terminal l).
  destruct (existsb terminal_row (drop (length events) p)) eqn:E.
  - rewrite app_nil_r. apply after_terminal_flush_some.
  - rewrite after_terminal_flush_none by done. apply IH.
Qed.

(** C1 (as amended): with [liveOutput] set, [events] starts from no event
    seen and, poll after poll, shows every event beyond those already seen,
    one at a time and in order, each display being the table so far with
    one more row.  It stops polling with the first poll that brings a
    terminal event ([JOB_ENDED] or [JOB_FAILED]): the events that follow
    the terminal one in that poll are still shown, but once a terminal
    event is on screen only displays follow, no request and no sleep, and
    [events] returns; it sends one request per poll up to that one.  (When
    the answers run out before a terminal event, the next request stays
    unanswered.) *)
Theorem events_live_stops_after_terminal_batch
    (w : World) (polls : list (list (list pyval)))
    (Hpolls : mapM reply_rows (net w) = Some polls) :
  let run := events getAccessToken self true refresh w in
  let tr := drop (length (out w)) (out (snd run)) in
  let bs := batches 0 polls in
  out (snd run) = out w ++ tr
  ∧ tables tr = growing [] (concat bs)
  ∧ requests tr = (length bs + if ended bs then 0 else 1)%nat
  ∧ forallb display_only (after_terminal tr) = true
  ∧ fst run = (if ended bs then Ok PNone else Blocked).
Proof.
  intros run tr bs. unfold events in run. cbn [negb] in run.
  destruct (loop_run polls (S (length (net w))) [] w) as [Hres Hout];
    [by apply mapM_Some | lia |].
  fold run in Hres, Hout.
  assert (tr = loop_io (os_name w) [] polls) as ->
    by (unfold tr; rewrite Hout; apply drop_app_length).
  repeat split.
  - exact Hout.
  - apply tables_loop.
  - apply requests_loop.
  - apply after_terminal_loop.
  - rewrite Hres. apply result_loop.
Qed.

End Events.

Definition info_row : list pyval :=
  [PStr "JOB_INFO"; PStr "running"; PStr "2021-01-01T00:00:00"].
Definition ended_row : list pyval :=
  [PStr "JOB_ENDED"; PStr "done"; PStr "2021-01-01T00:00:00"].

Lemma events_live_stops_after_terminal_batch_witness :
  let w := empty_world
             [status_of [] [];
              status_of [event "JOB_INFO" "running"; event "JOB_ENDED" "done"] []] in
  let run := events sample_token sample_job true 10 w in
  let tr := drop (length (out w)) (out (snd run)) in
  let bs := batches 0 [[]; [info_row; ended_row]] in
  out (snd run) = out w ++ tr
  ∧ tables tr = growing [] (concat bs)
  ∧ requests tr = (length bs + if ended bs then 0 else 1)%nat
  ∧ forallb display_only (after_terminal tr) = true
  ∧ fst run = (if ended bs then Ok PNone else Blocked).
Proof.
  apply (events_live_stops_after_terminal_batch sample_token sample_job
           "j1" "keeling" "community" 10 eq_refl eq_refl eq_refl eq_refl).
  - lia.
  - vm_compute. reflexivity.
Defined.

(** Two polls: no event at the first poll, [JOB_INFO] and
    [JOB_ENDED] at the second.  Both are shown in order, and [events]
    returns after two requests. *)
Example events_two_polls :
  let poll := IoRequest "GET" "/job/j1"
                (PDict {[ "accessToken" := PStr "token-s3cr3t" ]}) in
  let banner := [IoSystem "clear"; IoPrint "📮 Job ID: j1";
                 IoPrint "💻 HPC: keeling"; IoPrint "🤖 Maintainer: community"] in
  let run := events sample_token sample_job true 10
               (empty_world
                  [status_of [] [];
                   status_of [event "JOB_INFO" "running";
                              event "JOB_ENDED" "done"] []]) in
  fst run = Ok PNone
  ∧ net (snd run) = []
  ∧ out (snd run) =
    [poll; IoSleep 10; poll] ++
    banner ++ [IoTable false ["types"; "message"; "time"] [info_row]] ++
    banner ++ [IoTable false ["types"; "message"; "time"] [info_row; ended_row]].
Proof. vm_compute. repeat split; reflexivity. Qed.

(** C1, as stated, fails: the loop does not end the instant a terminal
    event is seen.  When [JOB_ENDED] is followed by another event in the
    same poll, that event is still shown after it. *)
Lemma events_shows_event_after_terminal :
  let run := events sample_token sample_job true 10
               (empty_world
                  [status_of [event "JOB_ENDED" "done";
                              event "JOB_INFO" "running"] []]) in
  fst run = Ok PNone
  ∧ tables (out (snd run)) = [[ended_row]; [ended_row; info_row]]
  ∧ after_terminal (out (snd run)) =
    [IoSystem "clear"; IoPrint "📮 Job ID: j1"; IoPrint "💻 HPC: keeling";
     IoPrint "🤖 Maintainer: community";
     IoTable false ["types"; "message"; "time"] [ended_row; info_row]].
Proof. vm_compute. repeat split; reflexivity. Qed.

(** * The remaining methods of [Job] *)

Section MoreMethods.
Variable getAccessToken : JAT -> pyval.

(** [json.dumps] of the Python library: the text of a JSON value. *)
Variable json_dumps : pyval -> string.

(** [Job.getBodyForRequest], lines 256-262. *)
Definition getBodyForRequest (self : Job.t) : gmap string pyval :=
  map_fold (λ i v body, if is_none v then body else <[i := v]> body)
    {[ "accessToken" := getAccessToken (JAT_ self) ]} (body self).

(** The columns of the table [submit] shows, in the order the answer is
    read. *)
Definition submit_headers : list string :=
  ["id"; "maintainer"; "hpc"; "executableFolder"; "dataFolder";
   "resultFolder"; "param"; "slurm"; "createdAt"].

(** [Job.submit], lines 69-94. *)
Definition submit (self : Job.t) : M Job.t :=
  client_attr self ;;;
  p <- str_add "/job/" (id self) ;;
  client_request (client self) "PUT" p (PDict (getBodyForRequest self)) ;;;
  client_attr self ;;;
  p <- str_add "/job/" (id self) ;;
  job <- client_request (client self) "POST" (p +:+ "/submit")
           (PDict (access_params getAccessToken self)) ;;
  emit (IoPrint "✅ job submitted") ;;;
  c_id <- getitem job "id" ;;
  c_maintainer <- getitem job "maintainer" ;;
  c_hpc <- getitem job "hpc" ;;
  c_executableFolder <- getitem job "executableFolder" ;;
  c_dataFolder <- getitem job "dataFolder" ;;
  c_resultFolder <- getitem job "resultFolder" ;;
  c_param <- getitem job "param" ;;
  c_slurm <- getitem job "slurm" ;;
  c_createdAt <- getitem job "createdAt" ;;
  emit (IoTable (truthy (isJupyter self)) submit_headers
          [[c_id; c_maintainer; c_hpc; c_executableFolder; c_dataFolder;
            c_resultFolder; PStr (json_dumps c_param);
            PStr (json_dumps c_slurm); c_createdAt]]) ;;;
  ret self.

(** [Job.queryGlobusTaskStatus], lines 238-244. *)
Definition queryGlobusTaskStatus (self : Job.t) : M pyval :=
  if is_none (id self) then
    raise (Exception "missing job ID, submit/register job first")
  else
    client_attr self ;;;
    p <- str_add "/file/" (id self) ;;
    client_request (client self) "GET" (p +:+ "/globus_task_status")
      (PDict (access_params getAccessToken self)).

End MoreMethods.

(** ** The request body *)

Section RequestBody.
Variable getAccessToken : JAT -> pyval.

Lemma request_body_lookup (self : Job.t) (k : string) :
  getBodyForRequest getAccessToken self !! k =
  match body self !! k with
  | Some v =>
      if is_none v
      then (if String.eqb k "accessToken"
            then Some (getAccessToken (JAT_ self)) else None)
      else Some v
  | None =>
      if String.eqb k "accessToken"
      then Some (getAccessToken (JAT_ self)) else None
  end.
Proof.
  unfold getBodyForRequest. revert k.
  apply (map_fold_weak_ind
           (λ r (m : gmap string pyval), ∀ k,
              r !! k =
              match m !! k with
              | Some v =>
                  if is_none v
                  then (if String.eqb k "accessToken"
                        then Some (getAccessToken (JAT_ self)) else None)
                  else Some v
              | None =>
                  if String.eqb k "accessToken"
                  then Some (getAccessToken (JAT_ self)) else None
              end)).
  - intros k. rewrite lookup_empty.
    destruct (String.eqb_spec k "accessToken") as [->|Hne].
    + apply lookup_singleton_eq.
    + by apply lookup_singleton_ne.
  - intros i x m r Hi IH k. destruct (decide (i = k)) as [->|Hne].
    + rewrite lookup_insert_eq. specialize (IH k). rewrite Hi in IH.
      destruct (is_none x); [exact IH | apply lookup_insert_eq].
    + rewrite (lookup_insert_ne m) by done.
      destruct (is_none x); [apply IH|].
      rewrite lookup_insert_ne by done. apply IH.
Qed.

(** X1: the body [getBodyForRequest] builds holds, under every key, the
    entry of the configuration when that entry is not [None]; the access
    token under [accessToken] when the configuration has no such entry;
    and nothing else: entries that are [None] are left out. *)
Theorem getBodyForRequest_lookup (self : Job.t) (k : string) :
  getBodyForRequest getAccessToken self !! k =
  match body self !! k with
  | Some v =>
      if is_none v
      then (if String.eqb k "accessToken"
            then Some (getAccessToken (JAT_ self)) else None)
      else Some v
  | None =>
      if String.eqb k "accessToken"
      then Some (getAccessToken (JAT_ self)) else None
  end.
Proof. apply request_body_lookup. Qed.

End RequestBody.

(** ** Submitting *)

(** The first of [keys] that [d] lacks. *)
Fixpoint first_missing (d : gmap string pyval) (keys : list string)
  : option string :=
  match keys with
  | [] => None
  | k :: keys' =>
      match d !! k with
      | Some _ => first_missing d keys'
      | None => Some k
      end
  end.

Section Submit.
Variable getAccessToken : JAT -> pyval.
Variable json_dumps : pyval -> string.
Variable self : Job.t.
Variable i : string.
Hypothesis Hid : id self = PStr i.
Hypothesis Hclient : client self = TheClient.

(** The two requests of [submit]. *)
Definition put_request : io :=
  IoRequest "PUT" ("/job/" +:+ i) (PDict (getBodyForRequest getAccessToken self)).

Definition post_request : io :=
  IoRequest "POST" (("/job/" +:+ i) +:+ "/submit")
    (PDict (access_params getAccessToken self)).

(** X2: when both requests are answered, [submit] has sent the
    configuration with [PUT /job/<id>] and then the submit action with
    [POST /job/<id>/submit], in this order and nothing else; the answer to
    the first is ignored.  It returns the job it was called on when the
    job record of the second answer has all nine displayed fields, and
    otherwise raises [KeyError] for the first missing one, the job having
    been submitted all the same.  No file is written. *)
Theorem submit_outcome (w : World) (v : pyval) (d : gmap string pyval)
    (rest : list reply)
    (Hnet : net w = Reply v :: Reply (PDict d) :: rest) :
  let run := submit getAccessToken json_dumps self w in
  List.filter is_request (out (snd run)) =
    List.filter is_request (out w) ++ [put_request; post_request]
  ∧ net (snd run) = rest
  ∧ fs (snd run) = fs w
  ∧ fst run = match first_missing d submit_headers with
              | Some k => Raised (KeyError k)
              | None => Ok self
              end.
Proof.
  unfold submit, client_attr, put_request, post_request.
  rewrite Hid, Hclient. autounfold with monad. cbn beta iota.
  cbn [net log set_net]. rewrite Hnet. cbn beta iota. cbn [net log set_net].
  cbn [first_missing submit_headers].
  repeat match goal with
         | |- context [d !! ?k] =>
             lazymatch goal with
             | H : d !! k = _ |- _ => fail
             | _ => let E := fresh "E" in destruct (d !! k) eqn:E
             end
         end;
    cbn beta iota; cbn [fst snd out net fs log set_net];
    rewrite ?List.filter_app; cbn [List.filter is_request];
    rewrite ?app_nil_r, <- ?app_assoc; repeat split; reflexivity.
Qed.

(** X3: when the first request fails, [submit] raises that failure and
    the submit action is never sent: the [PUT] is the only request, and
    the next answer of the transport is left untouched. *)
Theorem submit_stops_when_put_fails (w : World) (msg : string)
    (rest : list reply) (Hnet : net w = Fail msg :: rest) :
  let run := submit getAccessToken json_dumps self w in
  fst run = Raised (TransportError msg)
  ∧ out (snd run) = out w ++ [put_request]
  ∧ net (snd run) = rest.
Proof.
  unfold submit, client_attr, put_request.
  rewrite Hid, Hclient. autounfold with monad. cbn beta iota.
  cbn [net log set_net]. rewrite Hnet. done.
Qed.

End Submit.

(** A job record as the service returns it on submission. *)
Definition submit_answer_map : gmap string pyval :=
  list_to_map
    [("id", PStr "j1"); ("maintainer", PStr "community");
     ("hpc", PStr "keeling"); ("executableFolder", PStr "git://hello");
     ("dataFolder", PNone); ("resultFolder", PNone);
     ("param", PDict ∅); ("slurm", PDict ∅);
     ("createdAt", PStr "2021-01-01T00:00:00")].

Definition submit_answer_reply : reply := Reply (PDict submit_answer_map).

Lemma submit_outcome_witness :
  let w := empty_world [Reply PNone; submit_answer_reply] in
  let run := submit sample_token (λ _, "{}") sample_job w in
  List.filter is_request (out (snd run)) =
    List.filter is_request (out w) ++
    [put_request sample_token sample_job "j1";
     post_request sample_token sample_job "j1"]
  ∧ net (snd run) = []
  ∧ fs (snd run) = fs w
  ∧ fst run = match first_missing submit_answer_map submit_headers with
              | Some k => Raised (KeyError k)
              | None => Ok sample_job
              end.
Proof.
  apply (submit_outcome sample_token (λ _, "{}") sample_job "j1"
           eq_refl eq_refl
           (empty_world [Reply PNone; submit_answer_reply]) PNone
           submit_answer_map []).
  reflexivity.
Defined.

Lemma submit_stops_when_put_fails_witness :
  let w := empty_world [Fail "503"; submit_answer_reply] in
  let run := submit sample_token (λ _, "{}") sample_job w in
  fst run = Raised (TransportError "503")
  ∧ out (snd run) = out w ++ [put_request sample_token sample_job "j1"]
  ∧ net (snd run) = [submit_answer_reply].
Proof.
  apply (submit_stops_when_put_fails sample_token (λ _, "{}") sample_job "j1"
           eq_refl eq_refl
           (empty_world [Fail "503"; submit_answer_reply]) "503"
           [submit_answer_reply]).
  reflexivity.
Defined.

(** ** Configuring, then submitting *)

Lemma truthy_not_none (v : pyval) : truthy v = true → is_none v = false.
Proof. by destruct v. Qed.

(** X4: what [set] stores is what [submit] sends.  After a call of [set]
    the request body holds, under each of the six configuration keys, the
    argument given for it when that argument is truthy, and otherwise what
    it held before the call. *)
Theorem set_then_request_body (getAccessToken : JAT -> pyval)
    (self : Job.t) (ef df rf p e s : pyval) (w : World) (k : string) :
  let self' := after self (fst (set self ef df rf p e s w)) in
  getBodyForRequest getAccessToken self' !! k =
  if truthy (set_field k ef df rf p e s)
  then Some (set_field k ef df rf p e s)
  else getBodyForRequest getAccessToken self !! k.
Proof.
  intros self'. rewrite !request_body_lookup.
  assert (JAT_ self' = JAT_ self) as -> by reflexivity.
  unfold self'. rewrite set_body_lookup.
  destruct (truthy (set_field k ef df rf p e s)) eqn:E; [|reflexivity].
  by rewrite (truthy_not_none _ E).
Qed.

(** ** Retrieving results, by scheme *)

Section DownloadSchemes.
Variable getAccessToken : JAT -> pyval.
Variable self : Job.t.
Variable i : string.
Hypothesis Hid : id self = PStr i.
Hypothesis Hclient : client self = TheClient.

(** The parameters of the download and transfer requests. *)
Definition file_params (locator : string) : pyval :=
  PDict (<["fileUrl" := PStr locator]> (access_params getAccessToken self)).

Lemma download_split (scheme ident : string) :
  Str.count "://" (scheme +:+ "://" +:+ ident) = 1%nat →
  Str.split "://" (scheme +:+ "://" +:+ ident) = [scheme; ident].
Proof. apply StrFacts.split_one. Qed.

(** X5: for a locator [local://<ident>], [downloadResultFolder] asks
    the transport to download [/file] for that locator into
    [os.path.join(dir, ident)], prints where the transport put it and
    returns that path.  The destination lies under [dir] whenever the
    identifier does not start with [/]. *)
Theorem downloadResultFolder_local (w : World) (d : gmap string pyval)
    (ident dir path : string) (rest : list reply)
    (Hnet : net w = Reply (PDict d) :: Reply (PStr path) :: rest)
    (Hloc : d !! "resultFolder" = Some (PStr ("local" +:+ "://" +:+ ident)))
    (Hone : Str.count "://" ("local" +:+ "://" +:+ ident) = 1%nat) :
  let run := downloadResultFolder getAccessToken self (PStr dir) w in
  let dest := os_path_join dir ident in
  fst run = Ok (PStr path)
  ∧ out (snd run) =
    out w ++
    [IoRequest "GET" ("/job/" +:+ i) (PDict (access_params getAccessToken self));
     IoDownload "GET" "/file" (file_params ("local" +:+ "://" +:+ ident)) dest;
     IoPrint ("file successfully downloaded under: " +:+ path)]
  ∧ net (snd run) = rest
  ∧ (String.prefix "/" ident = false → ∃ tail, dest = dir +:+ tail).
Proof.
  intros run dest.
  assert (run =
          (Ok (PStr path),
           log (IoPrint ("file successfully downloaded under: " +:+ path))
             (set_net rest
                (log (IoDownload "GET" "/file"
                        (file_params ("local" +:+ "://" +:+ ident)) dest)
                   (after_status getAccessToken self i
                      (Reply (PStr path) :: rest) w))))) as ->.
  { unfold run.
    rewrite (download_status getAccessToken self (PStr dir) w i d
               (Reply (PStr path) :: rest) Hid Hclient Hnet), Hloc.
    unfold bind at 1, py_split, ret at 1. rewrite (download_split _ _ Hone).
    rewrite (proj2 (String.eqb_neq "local" "globus")) by done.
    rewrite String.eqb_refl.
    unfold client_attr, file_params. rewrite Hclient.
    autounfold with monad. reflexivity. }
  cbn [fst snd out net log set_net after_status].
  split; [reflexivity|]. split; [by rewrite <- !app_assoc|].
  split; [reflexivity|].
  intros Hrel. unfold dest, os_path_join. rewrite Hrel.
  destruct (String.eqb_spec dir "") as [->|_]; [by exists ident|].
  destruct (Str.ends_with_slash dir); eauto.
Qed.

(** X6: for a [local] locator and no directory given ([dir] is [None],
    the default), [downloadResultFolder] raises [TypeError] when it joins
    the paths: the status has been fetched, no download is requested. *)
Theorem downloadResultFolder_local_without_dir (w : World)
    (d : gmap string pyval) (ident : string) (rest : list reply)
    (Hnet : net w = Reply (PDict d) :: rest)
    (Hloc : d !! "resultFolder" = Some (PStr ("local" +:+ "://" +:+ ident)))
    (Hone : Str.count "://" ("local" +:+ "://" +:+ ident) = 1%nat) :
  downloadResultFolder getAccessToken self PNone w =
  (Raised TypeError, after_status getAccessToken self i rest w).
Proof.
  rewrite (download_status getAccessToken self PNone w i d rest Hid Hclient Hnet),
    Hloc.
  unfold bind at 1, py_split, ret at 1. rewrite (download_split _ _ Hone).
  reflexivity.
Qed.

(** X7: for a locator [globus://<ident>], [downloadResultFolder] sends
    one [GET /file] request for that locator and returns the answer as it
    is (a failure of the transport as that failure); the directory it was
    given plays no part and nothing is downloaded. *)
Theorem downloadResultFolder_globus (w : World) (d : gmap string pyval)
    (ident : string) (dir : pyval) (answer : reply) (rest : list reply)
    (Hnet : net w = Reply (PDict d) :: answer :: rest)
    (Hloc : d !! "resultFolder" = Some (PStr ("globus" +:+ "://" +:+ ident)))
    (Hone : Str.count "://" ("globus" +:+ "://" +:+ ident) = 1%nat) :
  let run := downloadResultFolder getAccessToken self dir w in
  fst run = match answer with
            | Reply v => Ok v
            | Fail msg => Raised (TransportError msg)
            end
  ∧ out (snd run) =
    out w ++
    [IoRequest "GET" ("/job/" +:+ i) (PDict (access_params getAccessToken self));
     IoRequest "GET" "/file" (file_params ("globus" +:+ "://" +:+ ident))]
  ∧ net (snd run) = rest.
Proof.
  intros run.
  assert (run =
          (match answer with
           | Reply v => Ok v
           | Fail msg => Raised (TransportError msg)
           end,
           set_net rest
             (log (IoRequest "GET" "/file"
                     (file_params ("globus" +:+ "://" +:+ ident)))
                (after_status getAccessToken self i (answer :: rest) w)))) as ->.
  { unfold run.
    rewrite (download_status getAccessToken self dir w i d (answer :: rest)
               Hid Hclient Hnet), Hloc.
    unfold bind at 1, py_split, ret at 1. rewrite (download_split _ _ Hone).
    rewrite String.eqb_refl.
    unfold client_attr, file_params. rewrite Hclient.
    autounfold with monad. by destruct answer. }
  cbn [fst snd out net log set_net after_status].
  split; [reflexivity|]. split; [by rewrite <- !app_assoc|]. reflexivity.
Qed.

End DownloadSchemes.

Lemma downloadResultFolder_local_witness :
  let w := empty_world [status_with_result "local://abc123";
                        Reply (PStr "/home/user/out/abc123")] in
  let run := downloadResultFolder sample_token sample_job (PStr "out") w in
  let dest := os_path_join "out" "abc123" in
  fst run = Ok (PStr "/home/user/out/abc123")
  ∧ out (snd run) =
    out w ++
    [IoRequest "GET" ("/job/" +:+ "j1")
       (PDict (access_params sample_token sample_job));
     IoDownload "GET" "/file"
       (file_params sample_token sample_job ("local" +:+ "://" +:+ "abc123"))
       dest;
     IoPrint ("file successfully downloaded under: " +:+ "/home/user/out/abc123")]
  ∧ net (snd run) = []
  ∧ (String.prefix "/" "abc123" = false → ∃ tail, dest = "out" +:+ tail).
Proof.
  apply (downloadResultFolder_local sample_token sample_job "j1"
           eq_refl eq_refl
           (empty_world [status_with_result "local://abc123";
                         Reply (PStr "/home/user/out/abc123")])
           {[ "resultFolder" := PStr "local://abc123" ]}
           "abc123" "out" "/home/user/out/abc123" []);
    reflexivity.
Defined.

Lemma downloadResultFolder_local_without_dir_witness :
  downloadResultFolder sample_token sample_job PNone
    (empty_world [status_with_result "local://abc123"]) =
  (Raised TypeError,
   after_status sample_token sample_job "j1" []
     (empty_world [status_with_result "local://abc123"])).
Proof.
  apply (downloadResultFolder_local_without_dir sample_token sample_job "j1"
           eq_refl eq_refl
           (empty_world [status_with_result "local://abc123"])
           {[ "resultFolder" := PStr "local://abc123" ]} "abc123" []);
    reflexivity.
Defined.

Lemma downloadResultFolder_globus_witness :
  let w := empty_world [status_with_result "globus://ep/path";
                        Reply (PDict {[ "task" := PStr "t1" ]})] in
  let run := downloadResultFolder sample_token sample_job PNone w in
  fst run = Ok (PDict {[ "task" := PStr "t1" ]})
  ∧ out (snd run) =
    out w ++
    [IoRequest "GET" ("/job/" +:+ "j1")
       (PDict (access_params sample_token sample_job));
     IoRequest "GET" "/file"
       (file_params sample_token sample_job ("globus" +:+ "://" +:+ "ep/path"))]
  ∧ net (snd run) = [].
Proof.
  apply (downloadResultFolder_globus sample_token sample_job "j1"
           eq_refl eq_refl
           (empty_world [status_with_result "globus://ep/path";
                         Reply (PDict {[ "task" := PStr "t1" ]})])
           {[ "resultFolder" := PStr "globus://ep/path" ]} "ep/path" PNone
           (Reply (PDict {[ "task" := PStr "t1" ]})) []);
    reflexivity.
Defined.

(** ** What is handed to the archiver *)

(** Induction on directory trees. *)
Lemma node_tree_ind (P : node → Prop) :
  (∀ c, P (File c)) →
  (∀ es, Forall (λ e, P (snd e)) es → P (Dir es)) →
  (∀ es, Forall (λ e, P (snd e)) es → P (SymlinkDir es)) →
  ∀ n, P n.
Proof.
  intros Hfile Hdir Hlink.
  fix IH 1. intros [c|es|es].
  - apply Hfile.
  - apply Hdir. induction es as [|[name child] es IHes]; constructor;
      [apply IH | exact IHes].
  - apply Hlink. induction es as [|[name child] es IHes]; constructor;
      [apply IH | exact IHes].
Qed.

(** The contents of the files of a walk, in the order they are read. *)
Definition walk_contents (steps : list walk_step) : list string :=
  flat_map (λ step, map snd (snd step)) steps.

Section Archiver.
(** Any archiver: a fresh archive and what [append] makes of an archive,
    a path and a content. *)
Context {A : Type} (new : A) (append : A → string → string → A).

(** The loop of [uploadExecutableFolder], lines 99-104, over that
    archiver. *)
Definition stage_with (folder_path : string) (steps : list walk_step) : A :=
  fold_left
    (fun zip step =>
       let '(root, _, files) := step in
       fold_left
         (fun zip fc =>
            append zip
              (os_path_join (Str.replace folder_path "" root) (fst fc))
              (snd fc))
         files zip)
    steps new.

(** Appending a list of pairs of path and content, in order. *)
Definition append_all (entries : list (string * string)) (zip : A) : A :=
  fold_left (λ zip e, append zip (fst e) (snd e)) entries zip.

End Archiver.

(** The pairs of path and content the loop passes to [append]. *)
Definition appended (folder_path : string) (steps : list walk_step)
  : list (string * string) :=
  flat_map
    (λ step : walk_step,
       map (λ fc, (os_path_join (Str.replace folder_path "" (fst (fst step)))
                     (fst fc), snd fc))
         (snd step))
    steps.

Lemma stage_with_appended {A} (append : A → string → string → A)
    (folder_path : string) (steps : list walk_step) :
  ∀ zip,
    fold_left
      (fun zip step =>
         let '(root, _, files) := step in
         fold_left
           (fun zip fc =>
              append zip
                (os_path_join (Str.replace folder_path "" root) (fst fc))
                (snd fc))
           files zip)
      steps zip =
    append_all append (appended folder_path steps) zip.
Proof.
  unfold append_all.
  induction steps as [|[[root dirs] files] steps IH]; intros zip; [done|].
  cbn [fold_left appended flat_map fst snd]. rewrite fold_left_app, IH.
  f_equal. clear. revert zip.
  induction files as [|fc files IH]; intros zip; [done|]. apply IH.
Qed.

Lemma append_all_list (entries : list (string * string)) :
  ∀ zip : Zip.t, append_all Zip.append entries zip = zip ++ entries.
Proof.
  unfold append_all, Zip.append.
  induction entries as [|[p c] entries IH]; intros zip; cbn [fold_left fst snd].
  - by rewrite app_nil_r.
  - by rewrite IH, <- app_assoc.
Qed.

Lemma stage_appended (folder_path : string) (steps : list walk_step) :
  stage folder_path steps = appended folder_path steps.
Proof.
  unfold stage. rewrite (stage_with_appended Zip.append).
  apply append_all_list.
Qed.

Lemma appended_contents (folder_path : string) (steps : list walk_step) :
  map snd (appended folder_path steps) = walk_contents steps.
Proof.
  unfold appended, walk_contents.
  induction steps as [|step steps IH]; [done|].
  cbn [flat_map]. rewrite map_app, IH, map_map. done.
Qed.

(** X8: whatever the archiver does with the entries it is given,
    [uploadExecutableFolder] hands it every walked file exactly once, in
    the order of the walk, with that file's content.  The archive built
    with any [append] is that [append] folded over the staged pairs of
    path and content, starting from the fresh archive, and the contents of
    those pairs are the contents of the walked files, one per file (only
    the paths depend on the replace). *)
Theorem stage_appends_every_walked_file {A} (new : A)
    (append : A → string → string → A)
    (folder_path : string) (steps : list walk_step) :
  stage_with new append folder_path steps =
    append_all append (stage folder_path steps) new
  ∧ map snd (stage folder_path steps) = walk_contents steps
  ∧ stage folder_path steps = stage_with Zip.new Zip.append folder_path steps.
Proof.
  rewrite stage_appended. unfold stage_with. repeat split.
  - apply stage_with_appended.
  - apply appended_contents.
  - rewrite stage_with_appended. symmetry. apply append_all_list.
Qed.

(** The files read at the steps of a walk. *)
Lemma walk_contents_app (s1 s2 : list walk_step) :
  walk_contents (s1 ++ s2) = walk_contents s1 ++ walk_contents s2.
Proof. unfold walk_contents. by rewrite flat_map_app. Qed.

Lemma file_entries_cons (name : string) (child : node)
    (es : list (string * node)) :
  file_entries ((name, child) :: es) =
  match child with File c => [(name, c)] | _ => [] end ++ file_entries es.
Proof. reflexivity. Qed.

Lemma os_walk_contents (n : node) :
  ∀ top rel,
    walk_contents (os_walk true top n) ≡ₚ map snd (walked_files rel n).
Proof.
  induction n as [c|es IH|es IH] using node_tree_ind; intros top rel;
    [done| |].
  all: cbn [os_walk walked_files].
  all: change (walk_contents (?s :: ?l))
         with (map snd (snd s) ++ walk_contents l); cbn [snd].
  all: induction es as [|[name child] es IHes]; [done|].
  all: apply Forall_cons in IH as [Hchild IH]; specialize (IHes IH).
  all: simpl in Hchild.
  all: rewrite file_entries_cons, map_app, walk_contents_app, map_app.
  all: destruct child as [c|sub|sub]; cbn [map snd app];
    [ constructor; exact IHes
    | rewrite (Hchild (os_path_join top name) (os_path_join rel name)),
        <- IHes; solve_Permutation
    | rewrite (Hchild (os_path_join top name) (os_path_join rel name)),
        <- IHes; solve_Permutation ].
Qed.

(** X9: with [followlinks] the walk reads every file below the folder
    exactly once, the files below linked directories included: the
    contents read are, up to order, the contents of all files of the
    tree. *)
Theorem os_walk_reads_every_file (n : node) :
  ∀ top rel,
    walk_contents (os_walk true top n) ≡ₚ map snd (walked_files rel n).
Proof. apply os_walk_contents. Qed.

(** ** Uploading: what is sent and what is kept *)


Section UploadOutcome.
Variable getAccessToken : JAT -> pyval.
Variable self : Job.t.
Hypothesis Hclient : client self = TheClient.


End UploadOutcome.


(** The path walked there is [/data]. *)
Example abspath_of_parent :
  abspath_of "/home/user" "../../data/" = "/data"
  ∧ abspath_of "/home/user" "./proj" = "/home/user/proj"
  ∧ abspath_of "/home/user" "/data//sub/./" = "/data/sub"
  ∧ abspath_of "/home/user" "" = "/home/user".
Proof. vm_compute. repeat split; reflexivity. Qed.

(** ** Construction: what is sent, and when nothing is *)

(** X11: a fresh registration sends exactly one request, [POST /job],
    whatever the service answers.  Its body holds the maintainer; the
    [hpc] only when one was given; and [user] and [password] only when a
    user was given, so a password passed without a user is not sent. *)
Theorem fresh_registration_request
    (maintainer hpc user password isJupyter : pyval) (w : World)
    (Hmaintainer : is_none maintainer = false) :
  let run := __init__ maintainer hpc PNone user password TheClient isJupyter w in
  ∃ req : gmap string pyval,
    List.filter is_request (out (snd run)) =
      List.filter is_request (out w) ++ [IoRequest "POST" "/job" (PDict req)]
    ∧ req !! "maintainer" = Some maintainer
    ∧ req !! "hpc" = (if is_none hpc then None else Some hpc)
    ∧ req !! "user" = (if is_none user then None else Some user)
    ∧ req !! "password" = (if is_none user then None else Some password)
    ∧ ∀ k, k ≠ "maintainer" → k ≠ "hpc" → k ≠ "user" → k ≠ "password" →
           req !! k = None.
Proof.
  intros run. unfold run, __init__. rewrite Hmaintainer. cbn [is_none negb].
  destruct (is_none hpc) eqn:Ehpc; destruct (is_none user) eqn:Euser;
    cbn [negb]; eexists;
    (split;
     [ unfold client_attr; cbn [client]; autounfold with monad;
       cbn beta iota; cbn [net log set_net];
       destruct (net w) as [|[v|msg] rest]; cbn beta iota;
       [ | destruct v as [| | | | |d];
           [ | | | | | destruct (d !! "hpc"); cbn beta iota;
                 [destruct (d !! "secretToken"); cbn beta iota;
                  [destruct (d !! "id") as [[| | | | |]|]; cbn beta iota;
                   try destruct (is_none password) | ] | ] ] | ];
       cbn beta iota; cbn [fst snd out net fs log set_net set_fs negb];
       rewrite ?List.filter_app; cbn [List.filter is_request];
       rewrite ?app_nil_r, <- ?app_assoc; reflexivity
     | repeat split; try (intros k ? ? ? ?); simplify_map_eq; reflexivity ]).
Qed.

Lemma fresh_registration_request_witness :
  let w := empty_world [] in
  let run := __init__ (PStr "community") PNone PNone PNone (PStr "pw")
               TheClient PNone w in
  ∃ req : gmap string pyval,
    List.filter is_request (out (snd run)) =
      List.filter is_request (out w) ++ [IoRequest "POST" "/job" (PDict req)]
    ∧ req !! "maintainer" = Some (PStr "community")
    ∧ req !! "hpc" = (if is_none PNone then None else Some PNone)
    ∧ req !! "user" = (if is_none PNone then None else Some PNone)
    ∧ req !! "password" = (if is_none PNone then None else Some (PStr "pw"))
    ∧ ∀ k, k ≠ "maintainer" → k ≠ "hpc" → k ≠ "user" → k ≠ "password" →
           req !! k = None.
Proof.
  apply (fresh_registration_request (PStr "community") PNone PNone (PStr "pw")
           PNone (empty_world [])).
  reflexivity.
Defined.

(** X12: given an id, the constructor never turns to the service or
    writes a file, whatever the identity file holds and also when it
    fails: no request is sent, no answer is consumed, the files stay as
    they are. *)
Theorem restore_is_offline
    (maintainer hpc id user password isJupyter : pyval) (client : client_ref)
    (w : World) (Hid : is_none id = false) :
  let run := __init__ maintainer hpc id user password client isJupyter w in
  net (snd run) = net w
  ∧ fs (snd run) = fs w
  ∧ List.filter is_request (out (snd run)) = List.filter is_request (out w).
Proof.
  intros run. unfold run, __init__. rewrite Hid. cbn [negb].
  destruct id as [| | |i| |]; try done; autounfold with monad; cbn beta iota.
  destruct (bool_decide _); cbn beta iota; [|done].
  destruct (fs w !! _) as [[| | | | |d]|]; cbn beta iota; try done.
  destruct (d !! "id") as [id'|]; cbn beta iota; [|done].
  destruct (d !! "secretToken"); cbn beta iota; [|done].
  destruct (d !! "hpc"); cbn beta iota; [|done].
  destruct (d !! "maintainer"); cbn beta iota; [|done].
  destruct (is_none password); cbn [negb]; cbn beta iota; [done|].
  destruct id'; cbn beta iota; cbn [fst snd out net fs log];
    rewrite ?List.filter_app; cbn [List.filter is_request];
    rewrite ?app_nil_r; done.
Qed.

Lemma restore_is_offline_witness :
  let w := empty_world [Reply PNone] in
  let run := __init__ PNone PNone (PStr "j404") PNone PNone TheClient PNone w in
  net (snd run) = net w
  ∧ fs (snd run) = fs w
  ∧ List.filter is_request (out (snd run)) = List.filter is_request (out w).
Proof.
  apply (restore_is_offline PNone PNone (PStr "j404") PNone PNone PNone
           TheClient (empty_world [Reply PNone])).
  reflexivity.
Defined.

(** X13: the identity file round-trips the credentials.  A job restored
    from the id of a fresh registration, in the world that registration
    left, is built without any effect and has the id, the [hpc] and the
    token manager (algorithm, id and secret) of the registered job, hence
    derives the same access token; its configuration is the initial one. *)
Theorem restore_reproduces_credentials
    (getAccessToken : JAT -> pyval)
    (maintainer hpc user password isJupyter isJupyter' : pyval)
    (client client' : client_ref) (w w' : World) (self : Job.t)
    (Habs : String.prefix "/" (cwd w) = true)
    (Hfresh : __init__ maintainer hpc PNone user password client isJupyter w
              = (Ok self, w')) :
  ∃ self',
    __init__ PNone PNone (id self) PNone PNone client' isJupyter' w'
      = (Ok self', w')
    ∧ id self' = id self
    ∧ Job.hpc self' = Job.hpc self
    ∧ JAT_ self' = JAT_ self
    ∧ getAccessToken (JAT_ self') = getAccessToken (JAT_ self)
    ∧ body self' = initial_body.
Proof.
  apply fresh_registration_ok in Hfresh as (i & sT & h & -> & Hm & Hcwd & Hfs).
  assert (String.prefix "/" (cwd w') = true) as Habs' by (by rewrite Hcwd).
  destruct (resolve_constructor_file w i Habs) as [Hprobe _].
  destruct (resolve_constructor_file w' i Habs') as [Hprobe' Hopen'].
  rewrite Hcwd in Hprobe', Hopen'.
  unfold __init__. cbn [id is_none negb].
  unfold constructor_file in *.
  autounfold with monad. cbn beta iota.
  rewrite Hprobe', Hfs, Hprobe, lookup_insert_eq.
  rewrite bool_decide_eq_true_2 by eauto. cbn beta iota.
  rewrite Hcwd, Hopen', Hfs, Hprobe, lookup_insert_eq.
  unfold identity_record. simpl.
  eexists. split; [reflexivity|]. simpl. repeat split.
Qed.

Lemma restore_reproduces_credentials_witness :
  ∃ self',
    __init__ PNone PNone (PStr "j1") PNone PNone TheClient PNone
      (snd (__init__ (PStr "community") PNone PNone PNone PNone TheClient
              PNone (empty_world [registration])))
      = (Ok self',
         snd (__init__ (PStr "community") PNone PNone PNone PNone TheClient
                PNone (empty_world [registration])))
    ∧ id self' = PStr "j1"
    ∧ Job.hpc self' = PStr "keeling"
    ∧ JAT_ self' = mkJAT "md5" (PStr "j1") (PStr "s3cr3t")
    ∧ sample_token (JAT_ self') =
      sample_token (mkJAT "md5" (PStr "j1") (PStr "s3cr3t"))
    ∧ body self' = initial_body.
Proof.
  apply (restore_reproduces_credentials sample_token
           (PStr "community") PNone PNone PNone PNone PNone TheClient TheClient
           (empty_world [registration])
           (snd (__init__ (PStr "community") PNone PNone PNone PNone TheClient
                   PNone (empty_world [registration])))
           (Job.mk (mkJAT "md5" (PStr "j1") (PStr "s3cr3t")) TheClient
              (PStr "community") PNone (PStr "j1") (PStr "keeling")
              initial_body)).
  - reflexivity.
  - vm_compute. reflexivity.
Defined.

(** ** Watching events: the rhythm of polls and sleeps *)

(** The requests and sleeps of a trace, in order. *)
Definition rhythm (tr : list io) : list io :=
  List.filter (λ e, is_request e || is_sleep e) tr.

(** [n] sleeps, each between two polls. *)
Fixpoint beats (poll : io) (seconds : Z) (n : nat) : list io :=
  match n with
  | O => [poll]
  | S n' => poll :: IoSleep seconds :: beats poll seconds n'
  end.

(** The number of polls that bring no terminal event before one does (or
    before the answers run out), [seen] events having been shown. *)
Fixpoint quiet_polls (seen : nat) (polls : list (list (list pyval))) : nat :=
  match polls with
  | [] => 0
  | p :: polls' =>
      let batch := drop seen p in
      if existsb terminal_row batch then 0%nat
      else S (quiet_polls (seen + length batch) polls')
  end.

Lemma rhythm_app (tr1 tr2 : list io) :
  rhythm (tr1 ++ tr2) = rhythm tr1 ++ rhythm tr2.
Proof. apply List.filter_app. Qed.

Section EventsRhythm.
Variable getAccessToken : JAT -> pyval.
Variable self : Job.t.
Variables (i h m : string) (refresh : Z).
Hypothesis Hid : id self = PStr i.
Hypothesis Hhpc : hpc self = PStr h.
Hypothesis Hmaintainer : maintainer self = PStr m.
Hypothesis Hclient : client self = TheClient.
Hypothesis Hrefresh : 0 <= refresh.

Lemma rhythm_frame (os : string) (rows : list (list pyval)) :
  rhythm (frame_io self i h m os rows) = [].
Proof. unfold frame_io. by destruct (truthy (isJupyter self)). Qed.

Lemma rhythm_flush (os : string) (events batch : list (list pyval)) :
  rhythm (flush_io self i h m os events batch) = [].
Proof.
  revert events. induction batch as [|r batch IH]; intros events; [done|].
  simpl. by rewrite rhythm_app, rhythm_frame, IH.
Qed.

Lemma rhythm_loop (os : string) (polls : list (list (list pyval))) :
  ∀ events,
    rhythm (loop_io getAccessToken self i h m refresh os events polls) =
    beats (poll_io getAccessToken self i) refresh
      (quiet_polls (length events) polls).
Proof.
  induction polls as [|p polls IH]; intros events; [done|].
  cbn [loop_io quiet_polls].
  change (rhythm (poll_io getAccessToken self i :: ?l))
    with (poll_io getAccessToken self i :: rhythm l).
  rewrite rhythm_app, rhythm_flush.
  destruct (existsb terminal_row (drop (length events) p)); [done|].
  change (rhythm (IoSleep refresh :: ?l)) with (IoSleep refresh :: rhythm l).
  rewrite IH, length_app. done.
Qed.

(** X14: with [liveOutput] set, [events] sleeps exactly between polls.
    Its requests and sleeps alternate, from a first status request to a
    last one; every sleep lasts [refreshRateInSeconds]; and there is one
    sleep after each poll that brought no terminal event, none after the
    poll that did. *)
Theorem events_sleeps_between_polls
    (w : World) (polls : list (list (list pyval)))
    (Hpolls : mapM reply_rows (net w) = Some polls) :
  let run := events getAccessToken self true refresh w in
  rhythm (drop (length (out w)) (out (snd run))) =
  beats (poll_io getAccessToken self i) refresh (quiet_polls 0 polls).
Proof.
  intros run. unfold events in run. cbn [negb] in run.
  destruct (loop_run getAccessToken self i h m refresh Hid Hhpc Hmaintainer
              Hclient Hrefresh polls (S (length (net w))) [] w)
    as [_ Hout]; [by apply mapM_Some | lia |].
  fold run in Hout. rewrite Hout, drop_app_length. apply rhythm_loop.
Qed.

End EventsRhythm.

Lemma events_sleeps_between_polls_witness :
  let w := empty_world
             [status_of [] [];
              status_of [event "JOB_INFO" "running"; event "JOB_ENDED" "done"] []] in
  let run := events sample_token sample_job true 10 w in
  rhythm (drop (length (out w)) (out (snd run))) =
  beats (poll_io sample_token sample_job "j1") 10
    (quiet_polls 0 [[]; [info_row; ended_row]]).
Proof.
  apply (events_sleeps_between_polls sample_token sample_job
           "j1" "keeling" "community" 10 eq_refl eq_refl eq_refl eq_refl).
  - lia.
  - vm_compute. reflexivity.
Defined.

(** ** Watching logs: what is shown *)

(** The row [logs] displays for a log entry: its message and time. *)
Definition log_row (o : pyval) : option (list pyval) :=
  match o with
  | PDict d =>
      match d !! "message", d !! "createdAt" with
      | Some msg, Some at_ => Some [msg; at_]
      | _, _ => None
      end
  | _ => None
  end.

(** The type of an event. *)
Definition event_type (o : pyval) : option pyval :=
  match o with
  | PDict d => d !! "type"
  | _ => None
  end.

(** The log rows and the event types a status answer carries. *)
Definition reply_cycle (r : reply) : option (list (list pyval) * list pyval) :=
  match r with
  | Reply (PDict d) =>
      match d !! "logs", d !! "events" with
      | Some (PList ls), Some (PList evs) =>
          match mapM log_row ls, mapM event_type evs with
          | Some rows, Some tys => Some (rows, tys)
          | _, _ => None
          end
      | _, _ => None
      end
  | _ => None
  end.

(** The new log rows of each status, from the number [seen] of rows
    already shown, up to and including the first status whose events hold
    a terminal one. *)
Fixpoint log_batches (seen : nat) (cycles : list (list (list pyval) * list pyval))
  : list (list (list pyval)) :=
  match cycles with
  | [] => []
  | (rows, tys) :: cycles' =>
      let batch := drop seen rows in
      batch :: (if existsb is_terminal tys then []
                else log_batches (seen + length batch) cycles')
  end.

(** Whether some status holds a terminal event. *)
Definition job_over (cycles : list (list (list pyval) * list pyval)) : bool :=
  existsb (λ c, existsb is_terminal (snd c)) cycles.

Lemma logs_scan_run (evs : list pyval) (tys : list pyval) :
  Forall2 (λ o ty, event_type o = Some ty) evs tys →
  ∀ w, logs_scan evs false w = (Ok (existsb is_terminal tys), w).
Proof.
  induction 1 as [|o ty evs tys Hty _ IH]; intros w; [done|].
  destruct o as [| | | | |d]; try discriminate. simpl in Hty.
  cbn [logs_scan]. autounfold with monad. rewrite Hty. cbn beta iota.
  cbn [existsb]. unfold is_terminal at 1.
  destruct (eq_str ty JOB_ENDED || eq_str ty JOB_FAILED); [done|].
  apply IH.
Qed.

Section LogsShown.
Variable getAccessToken : JAT -> pyval.
Variable self : Job.t.
Variables (i h m : string) (refresh : Z).
Hypothesis Hid : id self = PStr i.
Hypothesis Hhpc : hpc self = PStr h.
Hypothesis Hmaintainer : maintainer self = PStr m.
Hypothesis Hclient : client self = TheClient.
Hypothesis Hrefresh : 0 <= refresh.

(** What is shown for one log entry. *)
Definition log_frame_io (os : string) (rows : list (list pyval)) : list io :=
  (if truthy (isJupyter self) then [IoClearOutput] else []) ++
  [IoSystem (if String.eqb os "nt" then "cls" else "clear");
   IoPrint ("📮 Job ID: " +:+ i);
   IoPrint ("💻 HPC: " +:+ h);
   IoPrint ("🤖 Maintainer: " +:+ m);
   IoTable (truthy (isJupyter self)) ["message"; "time"] rows].

Fixpoint log_flush_io (os : string) (logs batch : list (list pyval)) : list io :=
  match batch with
  | [] => []
  | r :: batch' =>
      log_frame_io os (logs ++ [r]) ++ log_flush_io os (logs ++ [r]) batch'
  end.

Lemma logs_flush_run (todo : list pyval) (rows : list (list pyval)) :
  Forall2 (λ o r, log_row o = Some r) todo rows →
  ∀ logs w,
    logs_flush self todo logs w =
    (Ok (logs ++ rows), log_all (log_flush_io (os_name w) logs rows) w).
Proof.
  induction 1 as [|o r todo rows Hrow _ IH]; intros logs w.
  - simpl. by rewrite app_nil_r.
  - destruct o as [| | | | |d]; try discriminate. simpl in Hrow.
    destruct (d !! "message") as [msg|] eqn:Emsg; [|discriminate].
    destruct (d !! "createdAt") as [at_|] eqn:Eat; [|discriminate].
    injection Hrow as <-.
    cbn [logs_flush]. unfold _clear, print_banner.
    rewrite Hid, Hhpc, Hmaintainer.
    autounfold with monad. rewrite Emsg, Eat.
    unfold log_flush_io; fold log_flush_io. rewrite log_all_app.
    unfold log_frame_io.
    destruct (truthy (isJupyter self)); cbn [log_all fold_left app];
      destruct (String.eqb (os_name w) "nt") eqn:Eos; simpl;
      rewrite ?Eos; simpl; rewrite IH; simpl;
      rewrite <- app_assoc; reflexivity.
Qed.

(** The effects of the loop of [logs] on a sequence of statuses. *)
Fixpoint logs_io (os : string) (logs : list (list pyval))
    (cycles : list (list (list pyval) * list pyval)) : list io :=
  match cycles with
  | [] => [poll_io getAccessToken self i]
  | (rows, tys) :: cycles' =>
      let batch := drop (length logs) rows in
      poll_io getAccessToken self i :: log_flush_io os logs batch ++
      (if existsb is_terminal tys then [IoSleep refresh]
       else logs_io os (logs ++ batch) cycles')
  end.

Fixpoint logs_result (cycles : list (list (list pyval) * list pyval))
  : result pyval :=
  match cycles with
  | [] => Blocked
  | (_, tys) :: cycles' =>
      if existsb is_terminal tys then Ok PNone else logs_result cycles'
  end.

Lemma logs_loop_run (cycles : list (list (list pyval) * list pyval)) :
  ∀ fuel logs w,
    Forall2 (λ r c, reply_cycle r = Some c) (net w) cycles →
    (length (net w) < fuel)%nat →
    fst (logs_loop getAccessToken fuel self refresh logs w) =
      logs_result cycles
    ∧ out (snd (logs_loop getAccessToken fuel self refresh logs w)) =
      out w ++ logs_io (os_name w) logs cycles.
Proof.
  induction cycles as [|[rows tys] cycles IH]; intros fuel logs w Hnet Hfuel;
    (destruct fuel as [|fuel]; [lia|]);
    cbn [logs_loop]; unfold status, client_attr; rewrite Hid, Hclient;
    autounfold with monad; cbn [is_none net log].
  - apply Forall2_nil_inv_r in Hnet. rewrite Hnet. simpl. done.
  - apply Forall2_cons_inv_r in Hnet as (r & rest & Hr & Hrest & Hnet).
    rewrite Hnet in *.
    destruct r as [[| | | | |d]|]; try discriminate. simpl in Hr.
    destruct (d !! "logs") as [[| | | |ls|]|] eqn:Elogs; try discriminate.
    destruct (d !! "events") as [[| | | |evs|]|] eqn:Eevents; try discriminate.
    destruct (mapM log_row ls) as [rows'|] eqn:Hrows; [|discriminate].
    destruct (mapM event_type evs) as [tys'|] eqn:Htys; [|discriminate].
    injection Hr as -> ->.
    apply mapM_Some in Hrows, Htys.
    cbn [set_net net].
    rewrite (logs_flush_run _ _ (Forall2_drop _ _ _ (length logs) Hrows)).
    cbn beta iota. rewrite (logs_scan_run _ _ Htys).
    cbn beta iota. cbn [logs_result logs_io os_name].
    destruct (existsb is_terminal tys) eqn:Eend.
    + assert ((refresh <? 0) = false) as -> by lia.
      cbn [fst snd]. split; [done|].
      simpl. rewrite out_log_all. simpl. rewrite <- !app_assoc. done.
    + match goal with
      | |- context [logs_loop _ _ _ _ _ ?w1] =>
          destruct (IH fuel (logs ++ drop (length logs) rows) w1) as [H1 H2]
      end.
      * simpl. rewrite net_log_all. exact Hrest.
      * simpl. rewrite net_log_all. simpl. simpl in Hfuel. lia.
      * rewrite H1, H2. split; [done|].
        simpl. rewrite out_log_all, os_name_log_all. simpl.
        rewrite <- !app_assoc. done.
Qed.

Lemma tables_log_frame (os : string) (rows : list (list pyval)) :
  tables (log_frame_io os rows) = [rows].
Proof. unfold log_frame_io. by destruct (truthy (isJupyter self)). Qed.

Lemma tables_log_flush (os : string) (logs batch : list (list pyval)) :
  tables (log_flush_io os logs batch) = growing logs batch.
Proof.
  revert logs. induction batch as [|r batch IH]; intros logs; [done|].
  simpl. unfold tables in *. rewrite flat_map_app.
  fold (tables (log_frame_io os (logs ++ [r]))). rewrite tables_log_frame, IH.
  done.
Qed.

Lemma requests_log_flush (os : string) (logs batch : list (list pyval)) :
  requests (log_flush_io os logs batch) = 0%nat.
Proof.
  revert logs. induction batch as [|r batch IH]; intros logs; [done|].
  simpl. rewrite requests_app, IH. unfold log_frame_io.
  by destruct (truthy (isJupyter self)).
Qed.

Lemma tables_logs_io (os : string)
    (cycles : list (list (list pyval) * list pyval)) :
  ∀ logs,
    tables (logs_io os logs cycles) =
    growing logs (concat (log_batches (length logs) cycles)).
Proof.
  induction cycles as [|[rows tys] cycles IH]; intros logs; [done|].
  cbn [logs_io log_batches concat]. rewrite growing_app.
  change (tables (poll_io getAccessToken self i :: ?l)) with (tables l).
  unfold tables in *. rewrite flat_map_app.
  fold (tables (log_flush_io os logs (drop (length logs) rows))).
  rewrite tables_log_flush. f_equal.
  destruct (existsb is_terminal tys); [done|].
  rewrite IH, length_app. done.
Qed.

Lemma requests_logs_io (os : string)
    (cycles : list (list (list pyval) * list pyval)) :
  ∀ logs,
    requests (logs_io os logs cycles) =
    (length (log_batches (length logs) cycles) +
     if job_over cycles then 0 else 1)%nat.
Proof.
  induction cycles as [|[rows tys] cycles IH]; intros logs; [done|].
  cbn [logs_io log_batches job_over existsb length snd].
  change (requests (poll_io getAccessToken self i :: ?l)) with (S (requests l)).
  rewrite requests_app, requests_log_flush.
  destruct (existsb is_terminal tys); [done|].
  rewrite IH, length_app. done.
Qed.

Lemma logs_result_over (cycles : list (list (list pyval) * list pyval)) :
  logs_result cycles = if job_over cycles then Ok PNone else Blocked.
Proof.
  induction cycles as [|[rows tys] cycles IH]; [done|].
  cbn [logs_result job_over existsb snd].
  by destruct (existsb is_terminal tys).
Qed.

(** X15: with [liveOutput] set, [logs] starts from no log entry seen and,
    status after status, shows every log entry beyond those already seen,
    one at a time and in order, each display being the table so far with
    one more row.  It polls until a status holds a terminal event anywhere
    in its events list, shows the new log entries of that status too, and
    returns; it sends one request per status.  (When the answers run out
    first, the next request stays unanswered.) *)
Theorem logs_live_shows_every_entry
    (w : World) (cycles : list (list (list pyval) * list pyval))
    (Hcycles : mapM reply_cycle (net w) = Some cycles) :
  let run := logs getAccessToken self true refresh w in
  let tr := drop (length (out w)) (out (snd run)) in
  let bs := log_batches 0 cycles in
  out (snd run) = out w ++ tr
  ∧ tables tr = growing [] (concat bs)
  ∧ requests tr = (length bs + if job_over cycles then 0 else 1)%nat
  ∧ fst run = (if job_over cycles then Ok PNone else Blocked).
Proof.
  intros run tr bs. unfold logs in run. cbn [negb] in run.
  destruct (logs_loop_run cycles (S (length (net w))) [] w) as [Hres Hout];
    [by apply mapM_Some | lia |].
  fold run in Hres, Hout.
  assert (tr = logs_io (os_name w) [] cycles) as ->
    by (unfold tr; rewrite Hout; apply drop_app_length).
  repeat split.
  - exact Hout.
  - apply tables_logs_io.
  - apply requests_logs_io.
  - rewrite Hres. apply logs_result_over.
Qed.

End LogsShown.

Lemma logs_live_shows_every_entry_witness :
  let w := empty_world
             [status_of [event "JOB_INIT" "initialized"] [log_entry "hello"];
              status_of [event "JOB_INIT" "initialized"; event "JOB_ENDED" "done"]
                        [log_entry "hello"; log_entry "bye"]] in
  let cycles :=
    [([[PStr "hello"; PStr "2021-01-01T00:00:00"]], [PStr "JOB_INIT"]);
     ([[PStr "hello"; PStr "2021-01-01T00:00:00"];
       [PStr "bye"; PStr "2021-01-01T00:00:00"]],
      [PStr "JOB_INIT"; PStr "JOB_ENDED"])] in
  let run := logs sample_token sample_job true 15 w in
  let tr := drop (length (out w)) (out (snd run)) in
  let bs := log_batches 0 cycles in
  out (snd run) = out w ++ tr
  ∧ tables tr = growing [] (concat bs)
  ∧ requests tr = (length bs + if job_over cycles then 0 else 1)%nat
  ∧ fst run = (if job_over cycles then Ok PNone else Blocked).
Proof.
  apply (logs_live_shows_every_entry sample_token sample_job
           "j1" "keeling" "community" 15 eq_refl eq_refl eq_refl eq_refl).
  - lia.
  - vm_compute. reflexivity.
Defined.

(** ** Reading once *)

Section ReadOnce.
Variable getAccessToken : JAT -> pyval.
Variable self : Job.t.
Variable i : string.
Hypothesis Hid : id self = PStr i.
Hypothesis Hclient : client self = TheClient.

(** X16: without [liveOutput], [events] and [logs] fetch the status once
    and return its [events], respectively [logs], entry as it is, raising
    [KeyError] when the status has none; nothing is displayed, there is
    no sleep, and the refresh rate plays no part. *)
Theorem events_logs_snapshot (w : World) (d : gmap string pyval)
    (rest : list reply) (refresh : Z)
    (Hnet : net w = Reply (PDict d) :: rest) :
  events getAccessToken self false refresh w =
    (match d !! "events" with
     | Some v => Ok v
     | None => Raised (KeyError "events")
     end, after_status getAccessToken self i rest w)
  ∧ logs getAccessToken self false refresh w =
    (match d !! "logs" with
     | Some v => Ok v
     | None => Raised (KeyError "logs")
     end, after_status getAccessToken self i rest w).
Proof.
  unfold events, logs, status, client_attr, after_status.
  rewrite Hid, Hclient. cbn [negb is_none].
  autounfold with monad. cbn beta iota. cbn [net log set_net].
  rewrite Hnet. cbn beta iota.
  split; [by destruct (d !! "events") | by destruct (d !! "logs")].
Qed.

(** [queryGlobusTaskStatus] sends one request,
    [GET /file/<id>/globus_task_status], with the access token as its
    only parameter, and returns the answer as it is, a failure of the
    transport as that failure. *)
Theorem queryGlobusTaskStatus_passes_through (w : World) (answer : reply)
    (rest : list reply) (Hnet : net w = answer :: rest) :
  queryGlobusTaskStatus getAccessToken self w =
  (match answer with
   | Reply v => Ok v
   | Fail msg => Raised (TransportError msg)
   end,
   set_net rest
     (log (IoRequest "GET" (("/file/" +:+ i) +:+ "/globus_task_status")
             (PDict {[ "accessToken" := getAccessToken (JAT_ self) ]})) w)).
Proof.
  unfold queryGlobusTaskStatus, client_attr, access_params.
  rewrite Hid, Hclient. cbn [is_none].
  autounfold with monad. cbn beta iota. cbn [net log set_net].
  rewrite Hnet. by destruct answer.
Qed.

End ReadOnce.

Lemma events_logs_snapshot_witness :
  events sample_token sample_job false 10
    (empty_world [Reply (PDict {[ "events" := PList [] ]})]) =
    (match ({[ "events" := PList [] ]} : gmap string pyval) !! "events" with
     | Some v => Ok v
     | None => Raised (KeyError "events")
     end,
     after_status sample_token sample_job "j1" []
       (empty_world [Reply (PDict {[ "events" := PList [] ]})]))
  ∧ logs sample_token sample_job false 10
      (empty_world [Reply (PDict {[ "events" := PList [] ]})]) =
    (match ({[ "events" := PList [] ]} : gmap string pyval) !! "logs" with
     | Some v => Ok v
     | None => Raised (KeyError "logs")
     end,
     after_status sample_token sample_job "j1" []
       (empty_world [Reply (PDict {[ "events" := PList [] ]})])).
Proof.
  apply (events_logs_snapshot sample_token sample_job "j1" eq_refl eq_refl
           (empty_world [Reply (PDict {[ "events" := PList [] ]})])
           {[ "events" := PList [] ]} [] 10).
  reflexivity.
Defined.

Lemma queryGlobusTaskStatus_passes_through_witness :
  queryGlobusTaskStatus sample_token sample_job
    (empty_world [Fail "504"]) =
  (Raised (TransportError "504"),
   set_net []
     (log (IoRequest "GET" (("/file/" +:+ "j1") +:+ "/globus_task_status")
             (PDict {[ "accessToken" := sample_token (JAT_ sample_job) ]}))
        (empty_world [Fail "504"]))).
Proof.
  apply (queryGlobusTaskStatus_passes_through sample_token sample_job "j1"
           eq_refl eq_refl (empty_world [Fail "504"]) (Fail "504") []).
  reflexivity.
Defined.

(** ** Without an id *)

(** X17: a job whose id is [None] cannot be read: [status], [events],
    [logs] (live or not), [downloadResultFolder] and
    [queryGlobusTaskStatus] all raise the missing-id error and leave the
    world as it was; nothing is sent. *)
Theorem reads_need_an_id (getAccessToken : JAT -> pyval) (self : Job.t)
    (live : bool) (refresh : Z) (dir : pyval) (w : World)
    (Hid : id self = PNone) :
  let missing := Raised (Exception "missing job ID, submit/register job first") in
  status getAccessToken self w = (missing, w)
  ∧ events getAccessToken self live refresh w = (missing, w)
  ∧ logs getAccessToken self live refresh w = (missing, w)
  ∧ downloadResultFolder getAccessToken self dir w = (missing, w)
  ∧ queryGlobusTaskStatus getAccessToken self w = (missing, w).
Proof.
  unfold events, logs, downloadResultFolder, queryGlobusTaskStatus.
  assert (status getAccessToken self w =
          (Raised (Exception "missing job ID, submit/register job first"), w))
    as Hstatus by (unfold status; by rewrite Hid).
  rewrite Hid. cbn [is_none].
  repeat split; try exact Hstatus; destruct live; cbn [negb];
    cbn [events_loop logs_loop]; unfold bind; by rewrite Hstatus.
Qed.

Lemma reads_need_an_id_witness :
  let self := Job.mk (mkJAT "md5" PNone PNone) TheClient PNone PNone PNone
                PNone initial_body in
  let w := empty_world [Reply PNone] in
  let missing := Raised (Exception "missing job ID, submit/register job first") in
  status sample_token self w = (missing, w)
  ∧ events sample_token self true 10 w = (missing, w)
  ∧ logs sample_token self true 10 w = (missing, w)
  ∧ downloadResultFolder sample_token self PNone w = (missing, w)
  ∧ queryGlobusTaskStatus sample_token self w = (missing, w).
Proof.
  apply (reads_need_an_id sample_token
           (Job.mk (mkJAT "md5" PNone PNone) TheClient PNone PNone PNone
              PNone initial_body)
           true 10 PNone (empty_world [Reply PNone])).
  reflexivity.
Defined.

(** ** Configuring is local *)

(** X18: [set] works on the configuration alone.  It never fails and
    never turns to the service: its one effect is to print the resulting
    configuration; it returns [None]; the id, [hpc], maintainer, client
    and token manager of the job are as before; and no key of the
    configuration is ever removed. *)
Theorem set_is_local (self : Job.t) (ef df rf p e s : pyval) (w : World) :
  let self' := after self (fst (set self ef df rf p e s w)) in
  set self ef df rf p e s w =
    (Ok (self', PNone), log (IoPrintDict (body self')) w)
  ∧ id self' = id self ∧ hpc self' = hpc self
  ∧ maintainer self' = maintainer self
  ∧ client self' = client self ∧ JAT_ self' = JAT_ self
  ∧ dom (body self) ⊆ dom (body self').
Proof.
  intros self'. split; [reflexivity|]. repeat split.
  intros k Hk. apply elem_of_dom. apply elem_of_dom in Hk as [v Hv].
  unfold self'. rewrite set_body_lookup.
  destruct (truthy (set_field k ef df rf p e s)); eauto.
Qed.

(** * Helpers of the notebook interface ([UI.py]) *)

Module UI.

(** ** Safe names *)

(** [c.isalnum()] for a character of ASCII text. *)
Definition isalnum (c : ascii) : bool :=
  let n := nat_of_ascii c in
  (Nat.leb 48 n && Nat.leb n 57)
  || (Nat.leb 65 n && Nat.leb n 90)
  || (Nat.leb 97 n && Nat.leb n 122).

(** [c.isspace()] for a character of ASCII text: tab to carriage return,
    the four separators, and the space. *)
Definition isspace (c : ascii) : bool :=
  let n := nat_of_ascii c in
  (Nat.leb 9 n && Nat.leb n 13) || (Nat.leb 28 n && Nat.leb n 32).

Definition keepcharacters : list ascii := ["."%char; "_"%char].

(** The test of the generator in [makeNameSafe]. *)
Definition keeps (c : ascii) : bool :=
  isalnum c || existsb (Ascii.eqb c) keepcharacters.

(** ["".join(c for c in text if f(c))]. *)
Fixpoint join_if (f : ascii → bool) (text : string) : string :=
  match text with
  | EmptyString => EmptyString
  | String c text' =>
      if f c then String c (join_if f text') else join_if f text'
  end.

(** [s.rstrip()]: [s] without its trailing white space. *)
Fixpoint rstrip (s : string) : string :=
  match s with
  | EmptyString => EmptyString
  | String c s' =>
      match rstrip s' with
      | EmptyString => if isspace c then EmptyString else String c EmptyString
      | r => String c r
      end
  end.

(** [UI.makeNameSafe], lines 1165-1167, on ASCII text. *)
Definition makeNameSafe (text : string) : string :=
  rstrip (join_if keeps text).

(** All characters of a string pass a test. *)
Fixpoint all_chars (f : ascii → bool) (s : string) : bool :=
  match s with
  | EmptyString => true
  | String c s' => f c && all_chars f s'
  end.

(** Text of ASCII characters only. *)
Definition is_ascii_text (s : string) : bool :=
  all_chars (λ c, Nat.ltb (nat_of_ascii c) 128) s.

(** ** Pages of folders *)

(** The paging state of the interface. *)
Record pages : Type := mkPages {
  folderPage : Z;
  foldersPerPage : Z
}.

(** The paging state [UI.init] sets, lines 1119-1120. *)
Definition init_pages : pages := mkPages 0 10.

(** The handler of [onPrevPageButton], lines 1089-1091: its update of the
    page; the re-rendering that follows reads the page and does not
    assign it. *)
Definition onPrevPageButton (u : pages) : pages :=
  if folderPage u - 1 >=? 0
  then mkPages (folderPage u - 1) (foldersPerPage u)
  else u.

(** The handler of [onNextPageButton], lines 1097-1099. *)
Definition onNextPageButton (totalJobs : Z) (u : pages) : pages :=
  if (folderPage u + 1) * foldersPerPage u <? totalJobs
  then mkPages (folderPage u + 1) (foldersPerPage u)
  else u.

(** The bounds [firstFolder] and [lastFolder] that [renderFolders]
    computes for [n] folders, lines 788-793. *)
Definition folder_bounds (u : pages) (n : Z) : Z * Z :=
  let firstFolder := folderPage u * foldersPerPage u in
  let lastFolder := firstFolder + foldersPerPage u in
  (firstFolder, if lastFolder >=? n then n else lastFolder).

(** A slice index of Python, brought into the range of a list of [n]
    elements. *)
Definition slice_index (n k : Z) : Z :=
  if k <? 0 then Z.max (k + n) 0 else Z.min k n.

(** [l[lo:hi]]. *)
Definition py_slice {A} (l : list A) (lo hi : Z) : list A :=
  let n := Z.of_nat (length l) in
  let lo' := slice_index n lo in
  let hi' := slice_index n hi in
  take (Z.to_nat (hi' - lo')) (drop (Z.to_nat lo') l).

(** The folders [renderFolders] lists on the page, line 806:
    [list(reversed(folders))[firstFolder:lastFolder]]. *)
Definition shown_folders {A} (u : pages) (folders : list A) : list A :=
  let '(firstFolder, lastFolder) := folder_bounds u (Z.of_nat (length folders)) in
  py_slice (reverse folders) firstFolder lastFolder.

End UI.

(** ** Safe names: properties *)

Lemma keeps_not_space (c : ascii) : UI.keeps c = true → UI.isspace c = false.
Proof.
  destruct c as [[] [] [] [] [] [] [] []]; vm_compute; congruence.
Qed.

Lemma keeps_not_slash (c : ascii) :
  UI.keeps c = true → Ascii.eqb c "/"%char = false.
Proof.
  destruct c as [[] [] [] [] [] [] [] []]; vm_compute; congruence.
Qed.

Lemma all_chars_join_if (f : ascii → bool) (text : string) :
  UI.all_chars f (UI.join_if f text) = true.
Proof.
  induction text as [|c text IH]; [done|]. simpl.
  destruct (f c) eqn:E; [simpl; by rewrite E, IH | exact IH].
Qed.

Lemma join_if_all (f : ascii → bool) (text : string) :
  UI.all_chars f text = true → UI.join_if f text = text.
Proof.
  induction text as [|c text IH]; [done|]. simpl.
  intros [Hc Htext]%andb_true_iff. by rewrite Hc, IH.
Qed.

Lemma rstrip_keeps (s : string) :
  UI.all_chars UI.keeps s = true → UI.rstrip s = s.
Proof.
  induction s as [|c s IH]; [done|]. simpl.
  intros [Hc Hs]%andb_true_iff. rewrite (IH Hs).
  destruct s; [by rewrite (keeps_not_space c Hc) | done].
Qed.

Lemma all_chars_impl (f g : ascii → bool) (s : string) :
  (∀ c, f c = true → g c = true) →
  UI.all_chars f s = true → UI.all_chars g s = true.
Proof.
  intros Hfg. induction s as [|c s IH]; [done|]. simpl.
  intros [Hc Hs]%andb_true_iff. by rewrite (Hfg c Hc), IH.
Qed.

(** The final [rstrip] of [makeNameSafe] has nothing to remove. *)
Lemma makeNameSafe_join_if (text : string) :
  UI.makeNameSafe text = UI.join_if UI.keeps text.
Proof. apply rstrip_keeps, all_chars_join_if. Qed.

Lemma makeNameSafe_all_keeps (text : string) :
  UI.all_chars UI.keeps (UI.makeNameSafe text) = true.
Proof. rewrite makeNameSafe_join_if. apply all_chars_join_if. Qed.

(** X19: for ASCII text, [makeNameSafe] returns the text without the
    characters that are neither letters, digits, [.] nor [_], and with
    nothing else changed: the final [rstrip] never removes anything.  The
    result therefore has no white space and no [/]. *)
Theorem makeNameSafe_keeps_safe_characters (text : string)
    (Hascii : UI.is_ascii_text text = true) :
  UI.makeNameSafe text = UI.join_if UI.keeps text
  ∧ UI.all_chars UI.keeps (UI.makeNameSafe text) = true
  ∧ UI.all_chars (λ c, negb (UI.isspace c) && negb (Ascii.eqb c "/"%char))
      (UI.makeNameSafe text) = true.
Proof.
  rewrite (makeNameSafe_join_if text).
  split; [done|]. split; [apply all_chars_join_if|].
  apply (all_chars_impl UI.keeps); [|apply all_chars_join_if].
  intros c Hc. by rewrite (keeps_not_space c Hc), (keeps_not_slash c Hc).
Qed.

Lemma makeNameSafe_keeps_safe_characters_witness :
  UI.makeNameSafe "my job/v1.0 " = UI.join_if UI.keeps "my job/v1.0 "
  ∧ UI.all_chars UI.keeps (UI.makeNameSafe "my job/v1.0 ") = true
  ∧ UI.all_chars (λ c, negb (UI.isspace c) && negb (Ascii.eqb c "/"%char))
      (UI.makeNameSafe "my job/v1.0 ") = true.
Proof.
  apply (makeNameSafe_keeps_safe_characters "my job/v1.0 "). reflexivity.
Defined.

(** X20: for ASCII text, [makeNameSafe] leaves a name of safe
    characters as it is, and applying it twice is the same as applying it
    once. *)
Theorem makeNameSafe_idempotent (text : string)
    (Hascii : UI.is_ascii_text text = true) :
  (UI.all_chars UI.keeps text = true → UI.makeNameSafe text = text)
  ∧ UI.makeNameSafe (UI.makeNameSafe text) = UI.makeNameSafe text.
Proof.
  assert (Hsafe : ∀ s, UI.all_chars UI.keeps s = true → UI.makeNameSafe s = s).
  { intros s Hs. unfold UI.makeNameSafe. rewrite (join_if_all _ _ Hs).
    by apply rstrip_keeps. }
  split; [apply Hsafe|]. apply Hsafe, makeNameSafe_all_keeps.
Qed.

Lemma makeNameSafe_idempotent_witness :
  (UI.all_chars UI.keeps "run_2.out" = true →
   UI.makeNameSafe "run_2.out" = "run_2.out")
  ∧ UI.makeNameSafe (UI.makeNameSafe "run_2.out") = UI.makeNameSafe "run_2.out".
Proof.
  apply (makeNameSafe_idempotent "run_2.out"). reflexivity.
Defined.

Lemma prefix_slash_cons (c : ascii) (s : string) :
  String.prefix "/" (String c s) = Ascii.eqb "/"%char c.
Proof.
  cbn [String.prefix]. destruct (ascii_dec "/" c) as [<-|Hne].
  - rewrite Ascii.eqb_refl. by destruct s.
  - apply Ascii.eqb_neq in Hne. by rewrite Hne.
Qed.

(** X21: the local path of a download is below the root.  The
    interface builds it as
    [os.path.join(root_path, makeNameSafe(name) + "_" + rest)] (lines
    890-893 and 1069); whatever the ASCII name, the safe name followed by
    [_] never starts with [/], so the join keeps [root_path] in front. *)
Theorem download_path_below_root (root name rest : string)
    (Hascii : UI.is_ascii_text name = true) :
  ∃ sep,
    os_path_join root (UI.makeNameSafe name +:+ "_" +:+ rest) =
    root +:+ sep +:+ UI.makeNameSafe name +:+ "_" +:+ rest
    ∧ (sep = "" ∨ sep = "/").
Proof.
  pose proof (makeNameSafe_all_keeps name) as Hkeeps.
  assert (String.prefix "/" (UI.makeNameSafe name +:+ "_" +:+ rest) = false)
    as Hrel.
  { destruct (UI.makeNameSafe name) as [|c s]; [done|].
    rewrite StrFacts.app_cons, prefix_slash_cons.
    simpl in Hkeeps. apply andb_true_iff in Hkeeps as [Hc _].
    rewrite Ascii.eqb_sym. by apply keeps_not_slash. }
  unfold os_path_join. rewrite Hrel.
  destruct (String.eqb_spec root "") as [->|_]; [exists ""; auto|].
  destruct (Str.ends_with_slash root); [exists ""|exists "/"]; auto.
Qed.

Lemma download_path_below_root_witness :
  ∃ sep,
    os_path_join "/home/jovyan" (UI.makeNameSafe "../../etc" +:+ "_" +:+ "globus_download_42") =
    "/home/jovyan" +:+ sep +:+ UI.makeNameSafe "../../etc" +:+ "_" +:+ "globus_download_42"
    ∧ (sep = "" ∨ sep = "/").
Proof.
  apply (download_path_below_root "/home/jovyan" "../../etc" "globus_download_42").
  reflexivity.
Defined.

(** ** Pages of folders: properties *)

(** The page shown exists: it is the first one, or it starts before the
    end of the [n] folders. *)
Definition on_a_page (n : Z) (u : UI.pages) : Prop :=
  0 <= UI.folderPage u
  ∧ (UI.folderPage u = 0 ∨ UI.folderPage u * UI.foldersPerPage u < n).

(** X22: paging never leaves the folders.  From the initial state, and
    as long as the number [n] of folders stays the same, any clicks on
    "Previous Page" and "Next Page" lead to a page that exists: the page
    number is never negative, and a page other than the first starts
    before the end of the list.  The page size is never changed. *)
Theorem paging_stays_on_a_page (n : Z) (u : UI.pages)
    (Hper : 0 < UI.foldersPerPage u) (Hpage : on_a_page n u) :
  on_a_page n UI.init_pages
  ∧ on_a_page n (UI.onPrevPageButton u)
  ∧ on_a_page n (UI.onNextPageButton n u)
  ∧ UI.foldersPerPage (UI.onPrevPageButton u) = UI.foldersPerPage u
  ∧ UI.foldersPerPage (UI.onNextPageButton n u) = UI.foldersPerPage u.
Proof.
  destruct u as [page per]. destruct Hpage as [Hpos Hlt]. simpl in *.
  unfold on_a_page, UI.onPrevPageButton, UI.onNextPageButton; simpl.
  split; [lia|].
  destruct (Z.geb_spec (page - 1) 0); destruct (Z.ltb_spec ((page + 1) * per) n);
    simpl; repeat split; try lia; try tauto.
  all: try (destruct (decide (page - 1 = 0)); [by left | right; nia]).
Qed.

Lemma paging_stays_on_a_page_witness :
  on_a_page 25 UI.init_pages
  ∧ on_a_page 25 (UI.onPrevPageButton (UI.mkPages 2 10))
  ∧ on_a_page 25 (UI.onNextPageButton 25 (UI.mkPages 2 10))
  ∧ UI.foldersPerPage (UI.onPrevPageButton (UI.mkPages 2 10)) = 10
  ∧ UI.foldersPerPage (UI.onNextPageButton 25 (UI.mkPages 2 10)) = 10.
Proof.
  apply (paging_stays_on_a_page 25 (UI.mkPages 2 10)).
  - reflexivity.
  - unfold on_a_page. simpl. lia.
Defined.

(** X23: a page that exists is never empty and never too long.  With
    at least one folder, the bounds [renderFolders] computes satisfy
    [0 <= firstFolder < lastFolder <= n], and the folders listed are the
    [lastFolder - firstFolder] folders from position [firstFolder] of the
    reversed list: at least one, at most a page full. *)
Theorem shown_folders_page (A : Type) (folders : list A) (u : UI.pages)
    (Hper : 0 < UI.foldersPerPage u)
    (Hsome : folders ≠ [])
    (Hpage : on_a_page (Z.of_nat (length folders)) u) :
  let n := Z.of_nat (length folders) in
  let '(firstFolder, lastFolder) := UI.folder_bounds u n in
  0 <= firstFolder < lastFolder ∧ lastFolder <= n
  ∧ lastFolder - firstFolder <= UI.foldersPerPage u
  ∧ UI.shown_folders u folders =
    take (Z.to_nat (lastFolder - firstFolder))
      (drop (Z.to_nat firstFolder) (reverse folders))
  ∧ Z.of_nat (length (UI.shown_folders u folders)) = lastFolder - firstFolder.
Proof.
  intros n. destruct u as [page per]. destruct Hpage as [Hpos Hlt].
  simpl in *. fold n in Hlt.
  assert (0 < n) as Hn by (unfold n; destruct folders; [done | simpl; lia]).
  unfold UI.shown_folders, UI.folder_bounds. simpl. fold n.
  set (first := page * per).
  set (last := if first + per >=? n then n else first + per).
  assert (0 <= first < last ∧ last <= n ∧ last - first <= per) as (H1 & H2 & H3).
  { unfold last, first. destruct (Z.geb_spec (page * per + per) n); nia. }
  assert (UI.py_slice (reverse folders) first last =
          take (Z.to_nat (last - first))
            (drop (Z.to_nat first) (reverse folders))) as Hslice.
  { unfold UI.py_slice, UI.slice_index. rewrite length_reverse. fold n.
    destruct (Z.ltb_spec first 0); [lia|].
    destruct (Z.ltb_spec last 0); [lia|].
    by rewrite !Z.min_l by lia. }
  rewrite Hslice. repeat split; try lia.
  rewrite length_take, length_drop, length_reverse. unfold n in *. lia.
Qed.

Lemma shown_folders_page_witness :
  let folders := ["a"; "b"; "c"] in
  let u := UI.mkPages 1 2 in
  let n := Z.of_nat (length folders) in
  let '(firstFolder, lastFolder) := UI.folder_bounds u n in
  0 <= firstFolder < lastFolder ∧ lastFolder <= n
  ∧ lastFolder - firstFolder <= UI.foldersPerPage u
  ∧ UI.shown_folders u folders =
    take (Z.to_nat (lastFolder - firstFolder))
      (drop (Z.to_nat firstFolder) (reverse folders))
  ∧ Z.of_nat (length (UI.shown_folders u folders)) = lastFolder - firstFolder.
Proof.
  apply (shown_folders_page string ["a"; "b"; "c"] (UI.mkPages 1 2)).
  - reflexivity.
  - discriminate.
  - unfold on_a_page. simpl. lia.
Defined.

(** ** Construction: what is printed *)

(** The lines printed in a trace, in order. *)
Definition printed (tr : list io) : list string :=
  flat_map (λ e, match e with IoPrint line => [line] | _ => [] end) tr.

Lemma printed_app (tr1 tr2 : list io) :
  printed (tr1 ++ tr2) = printed tr1 ++ printed tr2.
Proof. apply flat_map_app. Qed.

(** The lines that warn about a password in the code. *)
Definition password_warning (i : string) : list string :=
  ["⚠️ password input detected, change your code to use Job(id= + id + ) instead";
   "🙅‍♂️ it's not safe to distribute code with login credentials";
   ("📃 share constructor file [job_constructor_" +:+ i) +:+ ".json] instead"].

(** X24: a fresh registration that succeeds prints the line naming the
    identity file it created and then, exactly when a password was
    passed, the three lines of the credential warning; the first of these
    is a fixed text and does not show the id. *)
Theorem fresh_registration_prints
    (maintainer hpc user password isJupyter : pyval) (client : client_ref)
    (w w' : World) (self : Job.t)
    (Hfresh : __init__ maintainer hpc PNone user password client isJupyter w
              = (Ok self, w')) :
  ∃ i,
    id self = PStr i
    ∧ printed (out w') =
      printed (out w) ++
      [("📃 created constructor file [job_constructor_" +:+ i) +:+ ".json]"] ++
      (if is_none password then [] else password_warning i).
Proof.
  revert Hfresh. unfold __init__, password_warning.
  crunch; intros H; try discriminate; injection H as <- <-;
    eexists; (split; [reflexivity|]);
    cbn [out log set_net set_fs]; rewrite ?printed_app; cbn [printed flat_map app];
    rewrite ?app_nil_r, <- ?app_assoc; reflexivity.
Qed.

Lemma fresh_registration_prints_witness :
  ∃ i,
    id sample_job = PStr i
    ∧ printed (out (snd (__init__ (PStr "community") PNone PNone PNone
                           (PStr "pw") TheClient PNone
                           (empty_world [registration])))) =
      printed (out (empty_world [registration])) ++
      [("📃 created constructor file [job_constructor_" +:+ i) +:+ ".json]"] ++
      (if is_none (PStr "pw") then [] else password_warning i).
Proof.
  apply (fresh_registration_prints (PStr "community") PNone PNone (PStr "pw")
           PNone TheClient (empty_world [registration])).
  vm_compute. reflexivity.
Defined.

(** ** Lists of the interface *)

Module UILists.

(** [l.pop(l.index(x))] leaves [l] without its first [x]. *)
Fixpoint remove_first (x : string) (l : list string) : list string :=
  match l with
  | [] => []
  | y :: l' => if String.eqb x y then l' else y :: remove_first x l'
  end.

(** The reordering of the result folder content in [renderDownload],
    lines 493-499: the default folder, if it is listed, is moved to the
    front; when it is not listed (or not set: [None]) the [try] fails
    before anything is changed. *)
Definition push_default_front (default : option string)
    (content : list string) : list string :=
  match default with
  | Some x =>
      if existsb (String.eqb x) content
      then x :: remove_first x content
      else content
  | None => content
  end.

(** The clamping of the list size in [renderRecentlySubmittedJobs],
    lines 835-836. *)
Definition clamp_job_list_size (n size : Z) : Z :=
  if n <? size then n else size.

(** [range(start, stop, -1)]. *)
Definition range_down (start stop : Z) : list Z :=
  map (λ k, start - Z.of_nat k) (seq 0 (Z.to_nat (start - stop))).

(** The indices of the jobs [renderRecentlySubmittedJobs] shows, line
    837, for [n] jobs and the stored list size. *)
Definition shown_job_indices (n size : Z) : list Z :=
  let size' := clamp_job_list_size n size in
  range_down (n - 1) (n - size' - 1).

End UILists.

Lemma remove_first_perm (x : string) (l : list string) :
  existsb (String.eqb x) l = true → x :: UILists.remove_first x l ≡ₚ l.
Proof.
  induction l as [|y l IH]; [done|]. simpl.
  destruct (String.eqb_spec x y) as [->|Hne]; [done|]. simpl.
  intros H. rewrite Permutation_swap. by rewrite (IH H).
Qed.

(** X25: the reordering of the download choices keeps the choices and
    puts the default first.  The result is a permutation of the folder
    content; when the default folder is listed it becomes the first
    (preselected) choice and the others keep their order; when it is not
    listed, or none is set, the content is left as it is. *)
Theorem push_default_front_spec (default : option string)
    (content : list string) :
  UILists.push_default_front default content ≡ₚ content
  ∧ match default with
    | Some x =>
        if existsb (String.eqb x) content
        then ∃ l1 l2, content = l1 ++ x :: l2
                      ∧ existsb (String.eqb x) l1 = false
                      ∧ UILists.push_default_front default content
                        = x :: l1 ++ l2
        else UILists.push_default_front default content = content
    | None => UILists.push_default_front default content = content
    end.
Proof.
  destruct default as [x|]; [|done]. unfold UILists.push_default_front.
  destruct (existsb (String.eqb x) content) eqn:E; [|done].
  split; [by apply remove_first_perm|].
  clear -E. induction content as [|y l IH]; [done|]. simpl in *.
  destruct (String.eqb_spec x y) as [->|Hne].
  - by exists [], l.
  - destruct (IH E) as (l1 & l2 & -> & Hl1 & Heq).
    exists (y :: l1), l2. simpl.
    rewrite (proj2 (String.eqb_neq x y) Hne). repeat split; [done|].
    injection Heq as ->. done.
Qed.

(** X26: the list of recent jobs shows the newest jobs first and never
    reaches outside the list.  For [n] jobs and a stored size that is not
    negative, the indices shown are [n-1], [n-2], ... down to
    [n - min(size, n)]: there are [min(size, n)] of them and each is a
    valid index. *)
Theorem shown_job_indices_spec (n size : Z) (Hn : 0 <= n) (Hsize : 0 <= size) :
  UILists.shown_job_indices n size =
    map (λ k, n - 1 - Z.of_nat k) (seq 0 (Z.to_nat (Z.min size n)))
  ∧ Z.of_nat (length (UILists.shown_job_indices n size)) = Z.min size n
  ∧ Forall (λ j, 0 <= j < n) (UILists.shown_job_indices n size).
Proof.
  unfold UILists.shown_job_indices, UILists.clamp_job_list_size,
    UILists.range_down.
  assert ((if n <? size then n else size) = Z.min size n) as ->
    by (destruct (Z.ltb_spec n size); lia).
  replace (n - 1 - (n - Z.min size n - 1)) with (Z.min size n) by lia.
  split; [done|]. split; [rewrite length_map, length_seq; lia|].
  apply Forall_forall. intros j Hj. apply list_elem_of_In, in_map_iff in Hj.
  destruct Hj as (k & <- & Hk%in_seq). lia.
Qed.

Lemma shown_job_indices_spec_witness :
  UILists.shown_job_indices 3 5 =
    map (λ k, 3 - 1 - Z.of_nat k) (seq 0 (Z.to_nat (Z.min 5 3)))
  ∧ Z.of_nat (length (UILists.shown_job_indices 3 5)) = Z.min 5 3
  ∧ Forall (λ j, 0 <= j < 3) (UILists.shown_job_indices 3 5).
Proof. apply (shown_job_indices_spec 3 5); lia. Defined.
